(** * versus: request fan-out, worker pools and per-endpoint statistics

    A shallow embedding of [client.go]: the statistics aggregator
    ([clientStats] with [Count] and [Render]), the construction of clients
    ([NewClient], [NewClients]), the sequencer ([Clients.Send],
    [Clients.Finalize]) and the worker pool ([Client.Serve]).

    Go's [int] and [time.Duration] are 64-bit two's-complement integers; they
    are carried by [Z] with the wrap-around written out.  A Go map is a
    finite map that may also be [nil].  Channels are bounded FIFO buffers. *)

From Stdlib Require Import ZArith Lia List.
From Stdlib Require Import Floats.SpecFloat.
From stdpp Require Import gmap strings list fin_maps.

Local Open Scope Z_scope.

(** ** Machine integers *)

Module GoInt.

Definition max_int : Z := 2 ^ 63 - 1.
Definition min_int : Z := - 2 ^ 63.

(** The value of a 64-bit two's-complement word holding [z]. *)
Definition wrap (z : Z) : Z := (z + 2 ^ 63) mod 2 ^ 64 - 2 ^ 63.

Definition in_range (z : Z) : Prop := min_int <= z <= max_int.

Definition add (a b : Z) : Z := wrap (a + b).
Definition mul (a b : Z) : Z := wrap (a * b).

(** Integer division truncates toward zero; a zero divisor is a run-time
    panic, which the result [None] stands for. *)
Definition quo (a b : Z) : option Z :=
  if decide (b = 0) then None else Some (wrap (Z.quot a b)).

End GoInt.

(** ** Go maps from strings to [int]

    The zero value of a map type is [nil]: reading it gives the zero value,
    ranging over it visits nothing, and assigning into it panics. *)

Module GoMap.

Definition t : Type := option (gmap string Z).

Definition nil : t := None.
Definition make : t := Some ∅.

Definition is_nil (m : t) : bool :=
  match m with None => true | Some _ => false end.

Definition entries (m : t) : gmap string Z := default ∅ m.

(** [m[k]] *)
Definition get (m : t) (k : string) : Z := default 0 (entries m !! k).

(** [m[k] = v]; [None] is the panic of an assignment into a nil map. *)
Definition set (m : t) (k : string) (v : Z) : option t :=
  match m with
  | None => None
  | Some g => Some (Some (<[k := v]> g))
  end.

(** The sum of the values held by the map. *)
Definition total (m : t) : Z :=
  map_fold (fun _ v acc => v + acc) 0 (entries m).

End GoMap.

(** ** The statistics aggregator *)

(** [time.Duration] is an [int64] count of nanoseconds. *)
Definition Duration : Type := Z.

(** An [error] value is observed through [Error()] only: [None] is the nil
    error, [Some msg] an error whose message is [msg]. *)
Definition error : Type := option string.

Record clientStats : Type := mkStats {
  NumTotal   : Z;
  NumErrors  : Z;
  TimeErrors : Duration;
  TimeTotal  : Duration;
  Errors     : GoMap.t
}.

(** The zero value of the struct, as a freshly built [Client] holds it. *)
Definition zeroStats : clientStats :=
  {| NumTotal := 0; NumErrors := 0; TimeErrors := 0; TimeTotal := 0;
     Errors := GoMap.nil |}.

(** The outcome of a call that may panic. *)
Inductive outcome (A : Type) : Type :=
| Returned (a : A)
| Panicked (msg : string).
Arguments Returned {A} a.
Arguments Panicked {A} msg.

(** [Count] runs with [stats.mu] held from its first statement to its return,
    so it is one atomic update of the record. *)
Definition Count (err : error) (elapsed : Duration) (stats : clientStats)
  : outcome clientStats :=
  let stats := {| NumTotal := GoInt.add (NumTotal stats) 1;
                  NumErrors := NumErrors stats;
                  TimeErrors := TimeErrors stats;
                  TimeTotal := TimeTotal stats;
                  Errors := Errors stats |} in
  match err with
  | Some msg =>
      let errs := if GoMap.is_nil (Errors stats) then GoMap.make
                  else Errors stats in
      match GoMap.set errs msg (GoInt.add (GoMap.get errs msg) 1) with
      | None => Panicked "assignment to entry in nil map"
      | Some errs' =>
          Returned {| NumTotal := NumTotal stats;
                      NumErrors := GoInt.add (NumErrors stats) 1;
                      TimeErrors := GoInt.add (TimeErrors stats) elapsed;
                      TimeTotal := GoInt.add (TimeTotal stats) elapsed;
                      Errors := errs' |}
      end
  | None =>
      Returned {| NumTotal := NumTotal stats;
                  NumErrors := NumErrors stats;
                  TimeErrors := TimeErrors stats;
                  TimeTotal := GoInt.add (TimeTotal stats) elapsed;
                  Errors := Errors stats |}
  end.

(** ** Rendering

    [Render] formats with [fmt.Fprintf]; each call is kept as its format
    string and its operands, so that what is printed can be read back. *)

Definition nl : string := String (Ascii.ascii_of_nat 10) EmptyString.

(** [float64] values, as IEEE 754 binary64. *)
Definition float64 : Type := spec_float.
Definition float64_of_int (z : Z) : float64 := binary_normalize 53 1024 z 0 false.
Definition float64_div (x y : float64) : float64 := SFdiv 53 1024 x y.
Definition float64_add (x y : float64) : float64 := SFadd 53 1024 x y.

Definition is_nan_or_inf (x : float64) : bool :=
  match x with
  | S754_nan | S754_infinity _ => true
  | _ => false
  end.

Definition Second : Duration := 1000000000.

(** [Duration.Seconds] of the standard library: whole seconds plus the
    fractional part, both converted to [float64]. *)
Definition Seconds (d : Duration) : float64 :=
  let sec := Z.quot d Second in
  let nsec := Z.rem d Second in
  float64_add (float64_of_int sec)
              (float64_div (float64_of_int nsec) (float64_of_int 1000000000)).

Inductive operand : Type :=
| OpFloat (x : float64)
| OpDuration (d : Duration)
| OpInt (n : Z)
| OpString (s : string).

Record fprintf_call : Type := Fprintf {
  format   : string;
  operands : list operand
}.

(** Two calls can be compared. *)
#[global]
Instance float64_eq_dec : EqDecision float64.
Proof. unfold float64. solve_decision. Defined.

#[global]
Instance operand_eq_dec : EqDecision operand.
Proof. solve_decision. Defined.

#[global]
Instance fprintf_call_eq_dec : EqDecision fprintf_call.
Proof. solve_decision. Defined.

(** An [io.Writer]: a state and a [Write] that may report an error. *)
Record Writer : Type := mkWriter {
  w_state : Type;
  w_write : w_state -> fprintf_call -> w_state * error
}.

(** The order in which [range] visits a map is not specified by the language:
    it is an input of the model, constrained to visit every entry once. *)
Record range_order : Type := mkRange {
  range_of : gmap string Z -> list (string * Z);
  range_of_perm : forall m, range_of m ≡ₚ map_to_list m
}.

Definition error_line (e : string * Z) : fprintf_call :=
  Fprintf ("   * [%d] %q" ++ nl) [OpInt (snd e); OpString (fst e)].

(** The two [float64] quotients that [Render] computes before anything else:
    [float64(stats.NumErrors*100) / float64(stats.NumTotal)] and
    [float64(stats.NumTotal) / stats.TimeTotal.Seconds()]. *)
Definition Render_errRate (stats : clientStats) : float64 :=
  float64_div (float64_of_int (GoInt.mul (NumErrors stats) 100))
              (float64_of_int (NumTotal stats)).

Definition Render_rps (stats : clientStats) : float64 :=
  float64_div (float64_of_int (NumTotal stats)) (Seconds (TimeTotal stats)).

Section Render.

Variable W : Writer.
Variable order : range_order.

(** [fmt.Fprintf(w, ...)] with its results discarded. *)
Definition fprintf_ (w : w_state W) (c : fprintf_call) : w_state W :=
  fst (w_write W w c).

Definition Render (stats : clientStats) (w : w_state W)
  : w_state W * outcome error :=
  let w := if decide (NumTotal stats = 0)
           then fprintf_ w (Fprintf "   No requests." [])
           else w in
  let errRate := Render_errRate stats in
  let rps := Render_rps stats in
  match GoInt.quo (TimeTotal stats) (NumTotal stats) with
  | None => (w, Panicked "integer divide by zero")
  | Some reqAvg =>
      let w := fprintf_ w (Fprintf "   Requests/Sec: %0.2f" [OpFloat rps]) in
      let after_rate (w : w_state W) : w_state W * outcome error :=
        let w := fprintf_ w (Fprintf nl []) in
        let w := fprintf_ w (Fprintf ("   Average:      %s" ++ nl)
                                     [OpDuration reqAvg]) in
        let w := fprintf_ w (Fprintf ("   Errors:       %0.2f%%" ++ nl)
                                     [OpFloat errRate]) in
        let w := fold_left (fun w e => fprintf_ w (error_line e))
                           (range_of order (GoMap.entries (Errors stats))) w in
        (w, Returned None) in
      if decide (0 < NumErrors stats /\ NumErrors stats <> NumTotal stats)
      then
        match GoInt.quo (TimeErrors stats) (NumErrors stats) with
        | None => (w, Panicked "integer divide by zero")
        | Some errAvg =>
            after_rate (fprintf_ w (Fprintf ", %s per error" [OpDuration errAvg]))
        end
      else after_rate w
  end.

End Render.

(** A writer that keeps every call it receives and never fails. *)
Definition logWriter : Writer :=
  {| w_state := list fprintf_call;
     w_write := fun w c => (w ++ [c], None) |}.

(** A writer that fails on every call and keeps nothing. *)
Definition brokenWriter : Writer :=
  {| w_state := unit;
     w_write := fun w _ => (w, Some "broken pipe") |}.

Definition anyOrder : range_order :=
  {| range_of := map_to_list; range_of_perm := fun m => reflexivity _ |}.

(** ** Requests, responses and channels *)

(** Modelled from the spec: [requestID] is declared outside [client.go].
    Section 3 of the specification gives a signed integer with the reserved
    value [-1]; it is taken as Go's [int], the type of the other counters. *)
Definition requestID : Type := Z.

Definition sentinelID : requestID := -1.

(** Modelled from the spec: the [Request] struct is declared outside
    [client.go]; these are the four fields that [Send] fills.  The [client]
    pointer is kept as the position of the client in [Clients]. *)
Record Request : Type := mkRequest {
  client    : option nat;
  ID        : requestID;
  Line      : list Byte.byte;
  Timestamp : Z
}.

(** [Request{ID: -1}]: every other field has its zero value. *)
Definition sentinel : Request :=
  {| client := None; ID := sentinelID; Line := []; Timestamp := 0 |}.

Definition is_sentinel (r : Request) : bool := bool_decide (ID r = sentinelID).

(** Modelled from the spec: the [Response] struct is declared outside
    [client.go]; [Serve] reads [Err] and [Elapsed] and passes the rest on
    unread, kept here as [Body]. *)
Record Response : Type := mkResponse {
  Err     : error;
  Elapsed : Duration;
  Body    : list Byte.byte
}.

(** ** The runtime

    The largest number of elements that [makechan] accepts for the buffer
    of a channel of [Request]s: [(maxAlloc - hchanSize) / sizeof(Request)].
    It is fixed by the platform, not by the program, and the properties
    below hold for every value of it.  An allocation that [makechan] accepts
    is taken to succeed: running out of memory is not a behaviour of the
    program. *)
Class Runtime : Type := { max_chan : Z }.

(** 64-bit Linux: [maxAlloc] is [2^48] bytes and [hchanSize] 96; a
    [Request] is 64 bytes, a pointer, an [int], a slice and a
    [time.Time]. *)
#[global]
Instance linux_amd64 : Runtime := {| max_chan := (2 ^ 48 - 96) / 64 |}.

Module Chan.

(** A channel: its capacity and what its buffer holds, oldest first. *)
Record t (A : Type) : Type := mk {
  cap : nat;
  buf : list A
}.
Arguments mk {A} cap buf.
Arguments cap {A} _.
Arguments buf {A} _.

(** [make(chan A, n)].  The runtime's [makechan] panics when
    [size < 0], or when the buffer of [size] elements is more than it
    allocates, [mem > maxAlloc - hchanSize]; in elements, when
    [size > max_chan]. *)
Definition make `{Runtime} {A : Type} (n : Z) : outcome (t A) :=
  if decide (n < 0 \/ max_chan < n)
  then Panicked "makechan: size out of range"
  else Returned (mk (Z.to_nat n) []).

Definition has_room {A : Type} (c : t A) : bool :=
  bool_decide (length (buf c) < cap c)%nat.

(** A send that finds room appends at the back; [None]: it has to wait. *)
Definition send {A : Type} (c : t A) (x : A) : option (t A) :=
  if has_room c then Some (mk (cap c) (buf c ++ [x])) else None.

(** A receive takes the oldest element; [None]: it has to wait. *)
Definition recv {A : Type} (c : t A) : option (A * t A) :=
  match buf c with
  | [] => None
  | x :: rest => Some (x, mk (cap c) rest)
  end.

End Chan.

(** ** Clients *)

Record Client : Type := mkClient {
  Endpoint    : string;
  Concurrency : Z;
  Timeout     : Duration;
  In          : Chan.t Request;
  Stats       : clientStats
}.

Definition NewClient `{Runtime} (endpoint : string) (concurrency : Z)
  : outcome (Client * error) :=
  match Chan.make (GoInt.mul 2 concurrency) with
  | Panicked msg => Panicked msg
  | Returned ch =>
      Returned ({| Endpoint := endpoint; Concurrency := concurrency;
                   Timeout := 0; In := ch; Stats := zeroStats |}, None)
  end.

Definition set_Timeout (timeout : Duration) (c : Client) : Client :=
  {| Endpoint := Endpoint c; Concurrency := Concurrency c;
     Timeout := timeout; In := In c; Stats := Stats c |}.

Definition Clients : Type := list Client.

Fixpoint NewClients_loop `{Runtime} (endpoints : list string)
    (concurrency : Z) (timeout : Duration) (clients : Clients)
  : outcome (option Clients * error) :=
  match endpoints with
  | [] => Returned (Some clients, None)
  | endpoint :: rest =>
      match NewClient endpoint concurrency with
      | Panicked msg => Panicked msg
      | Returned (c, Some e) => Returned (None, Some e)
      | Returned (c, None) =>
          NewClients_loop rest concurrency timeout
                          (clients ++ [set_Timeout timeout c])
      end
  end.

Definition NewClients `{Runtime} (endpoints : list string) (concurrency : Z)
    (timeout : Duration) : outcome (option Clients * error) :=
  NewClients_loop endpoints concurrency timeout [].

(** The first statement of [Client.Serve] after the error group is built:
    a concurrency below one is replaced by one, in the client itself. *)
Definition coerce_Concurrency (c : Client) : Client :=
  if decide (Concurrency c < 1)
  then {| Endpoint := Endpoint c; Concurrency := 1; Timeout := Timeout c;
          In := In c; Stats := Stats c |}
  else c.

(** How many times the body of [for i := 0; i < n; i++] runs. *)
Definition loop_count (n : Z) : nat := Z.to_nat n.

(** The number of worker goroutines that [Client.Serve] starts. *)
Definition Serve_workers (c : Client) : nat :=
  loop_count (Concurrency (coerce_Concurrency c)).

(** ** The sequencer

    [Send] and [Finalize] act on the queues by channel sends, each of which
    waits for room.  A call is described by the sends it completes, in
    order, each with the position of the client whose queue receives it. *)

Definition chan_send : Type := (nat * Request)%type.

(** How one [select] of [Send] is resolved. *)
Inductive select_case : Type :=
| CaseSend       (* the request went onto client.In *)
| CaseDone.      (* ctx.Done() fired first *)

Section Send.

(** [time.Now()] and the resolution of the select, at each client. *)
Variable now : nat -> Z.
Variable resolve : nat -> select_case.
(** [ctx.Err()] once the context is done. *)
Variable ctx_err : string.

Fixpoint Send_loop (id : requestID) (line : list Byte.byte)
    (i : nat) (clients : Clients) : list chan_send * error :=
  match clients with
  | [] => ([], None)
  | _ :: rest =>
      let req := {| client := Some i; ID := id; Line := line;
                    Timestamp := now i |} in
      match resolve i with
      | CaseSend =>
          let '(sends, e) := Send_loop id line (S i) rest in
          ((i, req) :: sends, e)
      | CaseDone => ([], Some ctx_err)
      end
  end.

(** [Send] on the package variable [id]: the new value of [id], the sends
    completed and the error returned. *)
Definition Send (id : requestID) (c : Clients) (line : list Byte.byte)
  : requestID * list chan_send * error :=
  let id := GoInt.add id 1 in
  let '(sends, e) := Send_loop id line 0%nat c in
  (id, sends, e).

End Send.

(** The package variable [id] when the program starts. *)
Definition id_init : requestID := 0.

Fixpoint Finalize_from (i : nat) (c : Clients) : list chan_send :=
  match c with
  | [] => []
  | cl :: rest =>
      replicate (loop_count (Concurrency cl)) (i, sentinel)
        ++ Finalize_from (S i) rest
  end.

Definition Finalize (c : Clients) : list chan_send := Finalize_from 0%nat c.

(** The requests that a sequence of sends puts on the queue of client [i]. *)
Definition sends_to (i : nat) (sends : list chan_send) : list Request :=
  snd <$> filter (fun s => fst s = i) sends.

(** ** The worker pool of one client

    [Client.Serve] starts [Concurrency] goroutines that share the client's
    queue, its statistics, the output channel and the context of the error
    group.  The pool is a transition system: a state holds what the
    goroutines share and where each of them stands, and a label names the
    goroutine that moves next together with what the outside decides for it
    (the response of the transport, whether the reader of the output channel
    is waiting). *)

Module Pool.

(** Modelled from the spec: [NewTransport] and the transport type are
    declared outside [client.go]; section 6 of the specification gives the
    factory as (address, timeout) to a transport or a construction error.
    A transport is kept as what it was built from. *)
Record Transport : Type := mkTransport {
  t_endpoint : string;
  t_timeout  : Duration
}.

(** The three [return] statements of the goroutine. *)
Inductive exit_path : Type :=
| ByConstruction     (* return err, after NewTransport failed *)
| ByCancel           (* return nil, case <-ctx.Done() *)
| BySentinel.        (* return nil, req.ID == -1 *)

(** Where a goroutine stands. *)
Inductive worker : Type :=
| Spawned                                    (* started by g.Go *)
| Selecting (t : Transport)                  (* at the select of the loop *)
| Sending (t : Transport) (resp : Response)  (* in the second out <- resp *)
| Exited (how : exit_path) (e : error).

Record state : Type := mkState {
  endpoint  : string;
  timeout   : Duration;
  queue     : Chan.t Request;      (* client.In *)
  stats     : clientStats;         (* client.Stats *)
  workers   : list worker;
  g_err     : error;               (* the first error of the group *)
  cancelled : bool;                (* ctx.Done() is closed *)
  out       : Chan.t Response;
  delivered : list Response;       (* what the reader of out has received *)
  warnings  : nat;                 (* overload warnings logged *)
  feed      : list Request;        (* sends the sequencer has still to make *)
  produced  : list Response        (* every response req.Do returned *)
}.

Definition set_queue (q : Chan.t Request) (s : state) : state :=
  mkState (endpoint s) (timeout s) q (stats s) (workers s) (g_err s)
          (cancelled s) (out s) (delivered s) (warnings s) (feed s)
          (produced s).

Definition set_feed (f : list Request) (s : state) : state :=
  mkState (endpoint s) (timeout s) (queue s) (stats s) (workers s) (g_err s)
          (cancelled s) (out s) (delivered s) (warnings s) f (produced s).

Definition set_worker (i : nat) (w : worker) (s : state) : state :=
  mkState (endpoint s) (timeout s) (queue s) (stats s)
          (<[i := w]> (workers s)) (g_err s)
          (cancelled s) (out s) (delivered s) (warnings s) (feed s)
          (produced s).

Definition set_cancelled (s : state) : state :=
  mkState (endpoint s) (timeout s) (queue s) (stats s) (workers s) (g_err s)
          true (out s) (delivered s) (warnings s) (feed s) (produced s).

(** What the error group does with a non-nil error returned by a
    goroutine: the first one is kept and cancels the context. *)
Definition group_fail (msg : string) (s : state) : state :=
  mkState (endpoint s) (timeout s) (queue s) (stats s) (workers s)
          (match g_err s with None => Some msg | Some e => Some e end)
          true (out s) (delivered s) (warnings s) (feed s) (produced s).

(** [client.Stats.Count(resp.Err, resp.Elapsed)] after [req.Do(t)]. *)
Definition record (resp : Response) (st : clientStats) (s : state) : state :=
  mkState (endpoint s) (timeout s) (queue s) st (workers s) (g_err s)
          (cancelled s) (out s) (delivered s) (warnings s) (feed s)
          (produced s ++ [resp]).

Definition put_out (o : Chan.t Response) (s : state) : state :=
  mkState (endpoint s) (timeout s) (queue s) (stats s) (workers s) (g_err s)
          (cancelled s) o (delivered s) (warnings s) (feed s) (produced s).

Definition hand_over (resp : Response) (s : state) : state :=
  mkState (endpoint s) (timeout s) (queue s) (stats s) (workers s) (g_err s)
          (cancelled s) (out s) (delivered s ++ [resp]) (warnings s)
          (feed s) (produced s).

Definition warn (s : state) : state :=
  mkState (endpoint s) (timeout s) (queue s) (stats s) (workers s) (g_err s)
          (cancelled s) (out s) (delivered s) (S (warnings s)) (feed s)
          (produced s).

(** A send on [out] that can complete now: straight to a reader that is
    waiting (the buffer is then empty), or into the buffer if it has room. *)
Definition out_send (parked : bool) (resp : Response) (s : state)
  : option state :=
  if parked && bool_decide (Chan.buf (out s) = [])
  then Some (hand_over resp s)
  else match Chan.send (out s) resp with
       | Some o => Some (put_out o s)
       | None => None
       end.

(** [select { case out <- resp: default: logger.Warn(); out <- resp }] *)
Definition forward (i : nat) (t : Transport) (parked : bool)
    (resp : Response) (s : state) : state :=
  match out_send parked resp s with
  | Some s' => set_worker i (Selecting t) s'
  | None => set_worker i (Sending t resp) (warn s)
  end.

(** The body of [case req := <-client.In], [resp] being what [req.Do(t)]
    returns.  [Count] cannot panic (see [Count_never_panics]); the case is
    there only because its type allows it. *)
Definition handle (i : nat) (t : Transport) (req : Request)
    (resp : Response) (parked : bool) (s : state) : option state :=
  if is_sentinel req then Some (set_worker i (Exited BySentinel None) s)
  else match Count (Err resp) (Elapsed resp) (stats s) with
       | Panicked _ => None
       | Returned st => Some (forward i t parked resp (record resp st s))
       end.

Inductive label : Type :=
| LCancel                              (* the caller cancels the context *)
| LFeed                                (* the sequencer's send finds room *)
| LConstruct (i : nat) (e : error)     (* NewTransport returns in worker i *)
| LAbort (i : nat)                     (* worker i takes <-ctx.Done() *)
| LRecv (i : nat) (resp : Response) (parked : bool)
                                       (* worker i takes the oldest request *)
| LRecvFeed (i : nat) (resp : Response) (parked : bool)
               (* worker i takes a request from a sender that is waiting *)
| LUnblock (i : nat) (parked : bool)   (* the second out <- resp completes *)
| LConsume.                            (* the reader takes from out's buffer *)

Definition step (l : label) (s : state) : option state :=
  match l with
  | LCancel => Some (set_cancelled s)
  | LFeed =>
      match feed s with
      | [] => None
      | r :: rest =>
          match Chan.send (queue s) r with
          | Some q => Some (set_queue q (set_feed rest s))
          | None => None
          end
      end
  | LConstruct i e =>
      match workers s !! i with
      | Some Spawned =>
          match e with
          | None =>
              Some (set_worker i
                      (Selecting (mkTransport (endpoint s) (timeout s))) s)
          | Some msg =>
              Some (group_fail msg
                      (set_worker i (Exited ByConstruction (Some msg)) s))
          end
      | _ => None
      end
  | LAbort i =>
      match workers s !! i with
      | Some (Selecting t) =>
          if cancelled s then Some (set_worker i (Exited ByCancel None) s)
          else None
      | _ => None
      end
  | LRecv i resp parked =>
      match workers s !! i with
      | Some (Selecting t) =>
          match Chan.recv (queue s) with
          | Some (req, q) => handle i t req resp parked (set_queue q s)
          | None => None
          end
      | _ => None
      end
  | LRecvFeed i resp parked =>
      match workers s !! i with
      | Some (Selecting t) =>
          match Chan.buf (queue s), feed s with
          | [], req :: rest => handle i t req resp parked (set_feed rest s)
          | _, _ => None
          end
      | _ => None
      end
  | LUnblock i parked =>
      match workers s !! i with
      | Some (Sending t resp) =>
          match out_send parked resp s with
          | Some s' => Some (set_worker i (Selecting t) s')
          | None => None
          end
      | _ => None
      end
  | LConsume =>
      match Chan.recv (out s) with
      | Some (r, o) => Some (hand_over r (put_out o s))
      | None => None
      end
  end.

(** A schedule is run from left to right; [None] if one of its labels
    cannot move where it stands. *)
Fixpoint run (ls : list label) (s : state) : option state :=
  match ls with
  | [] => Some s
  | l :: rest =>
      match step l s with
      | Some s' => run rest s'
      | None => None
      end
  end.

Definition has_exited (w : worker) : bool :=
  match w with Exited _ _ => true | _ => false end.

(** [g.Wait()]: it returns once every goroutine has, with the first error
    of the group; [None] while it is still waiting. *)
Definition wait (s : state) : option error :=
  if forallb has_exited (workers s) then Some (g_err s) else None.

(** The pool as [client.Serve(ctx, out)] starts it: the concurrency is
    coerced, then one goroutine per unit of it is started. *)
Definition Serve (c : Client) (ctx_done : bool) (o : Chan.t Response)
    (todo : list Request) : Client * state :=
  let c := coerce_Concurrency c in
  (c,
   {| endpoint := Endpoint c; timeout := Timeout c; queue := In c;
      stats := Stats c;
      workers := replicate (loop_count (Concurrency c)) Spawned;
      g_err := None; cancelled := ctx_done; out := o; delivered := [];
      warnings := 0; feed := todo; produced := [] |}).

(** The response held by a goroutine that is inside the second
    [out <- resp]. *)
Definition flight (w : worker) : list Response :=
  match w with Sending _ r => [r] | _ => [] end.

Definition in_flight (ws : list worker) : list Response :=
  foldr (fun w acc => flight w ++ acc) [] ws.

Definition exited_by (how : exit_path) (w : worker) : bool :=
  match w, how with
  | Exited ByConstruction _, ByConstruction => true
  | Exited ByCancel _, ByCancel => true
  | Exited BySentinel _, BySentinel => true
  | _, _ => false
  end.

Definition count_exits (how : exit_path) (ws : list worker) : nat :=
  sum_list_with (fun w => if exited_by how w then 1 else 0)%nat ws.

(** The goroutines that have not returned. *)
Definition running (ws : list worker) : nat :=
  sum_list_with (fun w => if has_exited w then 0 else 1)%nat ws.

Definition count_sentinels (rs : list Request) : nat :=
  sum_list_with (fun r => if is_sentinel r then 1 else 0)%nat rs.

(** The errors of the transport constructions that failed, in the order in
    which the goroutines returned them. *)
Definition construct_errors (ls : list label) : list string :=
  omap (fun l => match l with
                 | LConstruct _ (Some msg) => Some msg
                 | _ => None
                 end) ls.


(** A shutdown by sentinels: nobody cancels the context and every transport
    is built. *)
Definition normal (l : label) : bool :=
  match l with
  | LCancel | LConstruct _ (Some _) => false
  | _ => true
  end.

(** A bound on the number of steps a pool can still take without new
    input. *)
Definition weight (w : worker) : nat :=
  match w with Spawned => 1 | Sending _ _ => 2 | _ => 0 end.

Definition work_left (s : state) : nat :=
  4 * length (feed s) + 3 * length (Chan.buf (queue s))
  + length (Chan.buf (out s)) + sum_list_with weight (workers s).

(** The reader of [out] empties the buffer, then takes the response of each
    goroutine that is waiting to send. *)
Fixpoint unblock_from (i : nat) (ws : list worker) : list label :=
  match ws with
  | [] => []
  | Sending _ _ :: rest => LUnblock i true :: unblock_from (S i) rest
  | _ :: rest => unblock_from (S i) rest
  end.

Definition drain (s : state) : list label :=
  replicate (length (Chan.buf (out s))) LConsume
  ++ unblock_from 0 (workers s).

End Pool.

(** ** Runs of [Count] *)

(** A sequence of [Count] calls, each on the state the previous one left. *)
Fixpoint Count_each (calls : list (error * Duration)) (stats : clientStats)
  : outcome clientStats :=
  match calls with
  | [] => Returned stats
  | (err, elapsed) :: rest =>
      match Count err elapsed stats with
      | Returned stats' => Count_each rest stats'
      | Panicked msg => Panicked msg
      end
  end.

Definition failed (call : error * Duration) : bool :=
  match fst call with Some _ => true | None => false end.

Definition sum_elapsed (calls : list (error * Duration)) : Z :=
  foldr (fun call acc => snd call + acc) 0 calls.

(** What the counters of an aggregator satisfy as long as none of them
    has overflowed. *)
Record consistent (s : clientStats) : Prop := mkConsistent {
  cons_errors : 0 <= NumErrors s <= NumTotal s;
  cons_time   : 0 <= TimeErrors s <= TimeTotal s;
  cons_sum    : GoMap.total (Errors s) = NumErrors s;
  cons_pos    : map_Forall (fun _ v => 0 <= v) (GoMap.entries (Errors s))
}.

(** ** The report, in the words of the specification

    Section 4.3: requests per second is [NumTotal / TimeTotal.seconds()], the
    average latency [TimeTotal / NumTotal], the error rate
    [100 * NumErrors / NumTotal], the mean error latency
    [TimeErrors / NumErrors], shown when there were errors and not every
    request failed; then one line per error message with its count. *)

Definition requests_per_sec (stats : clientStats) : float64 :=
  float64_div (float64_of_int (NumTotal stats)) (Seconds (TimeTotal stats)).

Definition average_latency (stats : clientStats) : Duration :=
  Z.quot (TimeTotal stats) (NumTotal stats).

Definition error_rate (stats : clientStats) : float64 :=
  float64_div (float64_of_int (100 * NumErrors stats))
              (float64_of_int (NumTotal stats)).

Definition mean_error_latency (stats : clientStats) : Duration :=
  Z.quot (TimeErrors stats) (NumErrors stats).

Definition some_not_all_failed (stats : clientStats) : Prop :=
  0 < NumErrors stats /\ NumErrors stats <> NumTotal stats.

Definition per_error_call (d : Duration) : fprintf_call :=
  Fprintf ", %s per error" [OpDuration d].

Definition report (lines : list (string * Z)) (stats : clientStats)
  : list fprintf_call :=
  [Fprintf "   Requests/Sec: %0.2f" [OpFloat (requests_per_sec stats)]]
  ++ (if decide (some_not_all_failed stats)
      then [per_error_call (mean_error_latency stats)] else [])
  ++ [Fprintf nl [];
      Fprintf ("   Average:      %s" ++ nl) [OpDuration (average_latency stats)];
      Fprintf ("   Errors:       %0.2f%%" ++ nl) [OpFloat (error_rate stats)]]
  ++ (error_line <$> lines).

(** The values that the fields of a [clientStats] can hold. *)
Record representable (s : clientStats) : Prop := mkRepresentable {
  rep_NumTotal   : GoInt.in_range (NumTotal s);
  rep_NumErrors  : GoInt.in_range (NumErrors s);
  rep_TimeErrors : GoInt.in_range (TimeErrors s);
  rep_TimeTotal  : GoInt.in_range (TimeTotal s)
}.

(** ** Runs of [Send] *)

(** What the outside decides for one call of [Send]: the payload, the clock
    and the resolution of each select. *)
Record send_call : Type := mkSendCall {
  sc_line    : list Byte.byte;
  sc_now     : nat -> Z;
  sc_resolve : nat -> select_case
}.

(** Successive calls of [Send] by one producer, each starting from the value
    of [id] that the previous one left; the result of each call is kept. *)
Fixpoint Send_each (ctx_err : string) (id : requestID) (c : Clients)
    (calls : list send_call) : list (requestID * list chan_send * error) :=
  match calls with
  | [] => []
  | k :: rest =>
      let r := Send (sc_now k) (sc_resolve k) ctx_err id c (sc_line k) in
      r :: Send_each ctx_err (fst (fst r)) c rest
  end.

(** The identifiers that the calls of a run assigned, in order. *)
Definition assigned (results : list (requestID * list chan_send * error))
  : list requestID :=
  (fun r => fst (fst r)) <$> results.

(** One copy of the request per client, in the order of the clients. *)
Definition broadcast (id : requestID) (line : list Byte.byte) (now : nat -> Z)
    (c : Clients) : list chan_send :=
  imap (fun i _ => (i, {| client := Some i; ID := id; Line := line;
                          Timestamp := now i |})) c.

(** Where the responses of a pool are: with the reader of [out], in the
    buffer of [out], or held by a goroutine that waits to send. *)
Definition accounted (s : Pool.state) : list Response :=
  Pool.delivered s ++ Chan.buf (Pool.out s) ++ Pool.in_flight (Pool.workers s).

(** During a shutdown by sentinels a goroutine that has returned did so on
    a sentinel, with a nil error. *)
Definition stopped_by_sentinel (w : Pool.worker) : Prop :=
  match w with
  | Pool.Exited how e => how = Pool.BySentinel /\ e = None
  | _ => True
  end.

(** A response for the labels of a schedule that is only shown to exist. *)
Definition any_response : Response :=
  {| Err := None; Elapsed := 0; Body := [] |}.

(** ** More on runs of [Count] *)

(** How many calls of a run failed with the message [msg]. *)
Definition count_message (msg : string) (calls : list (error * Duration)) : Z :=
  Z.of_nat (length (filter (fun call => fst call = Some msg) calls)).

(** ** [Client.Handle] and the clients of [NewClients] *)

Definition set_In (q : Chan.t Request) (c : Client) : Client :=
  {| Endpoint := Endpoint c; Concurrency := Concurrency c;
     Timeout := Timeout c; In := q; Stats := Stats c |}.

(** [client.In <- req], with nobody receiving meanwhile: [None] when the
    send has to wait. *)
Definition Handle (req : Request) (c : Client) : option Client :=
  match Chan.send (In c) req with
  | Some q => Some (set_In q c)
  | None => None
  end.

(** Successive calls of [Handle] on one client. *)
Fixpoint Handle_each (reqs : list Request) (c : Client) : option Client :=
  match reqs with
  | [] => Some c
  | req :: rest =>
      match Handle req c with
      | Some c' => Handle_each rest c'
      | None => None
      end
  end.

(** The client that [NewClients] builds for one endpoint. *)
Definition fresh_client (concurrency : Z) (timeout : Duration)
    (endpoint : string) : Client :=
  {| Endpoint := endpoint; Concurrency := concurrency; Timeout := timeout;
     In := Chan.mk (Z.to_nat (GoInt.mul 2 concurrency)) [];
     Stats := zeroStats |}.

(** ** More on the worker pool *)

(** The arguments that [Serve] gives to [Count] for a response. *)
Definition calls_of (rs : list Response) : list (error * Duration) :=
  (fun r => (Err r, Elapsed r)) <$> rs.

(** The requests of a list that are not sentinels. *)
Definition count_requests (rs : list Request) : nat :=
  sum_list_with (fun r => if is_sentinel r then 0 else 1)%nat rs.

(** When the context is done: the reader takes what is in the buffer of
    [out], then each goroutine gets to its select (handing over the response
    it holds, or building its transport) and takes [<-ctx.Done()]. *)
Fixpoint stop_from (i : nat) (ws : list Pool.worker) : list Pool.label :=
  match ws with
  | [] => []
  | Pool.Spawned :: rest =>
      Pool.LConstruct i None :: Pool.LAbort i :: stop_from (S i) rest
  | Pool.Selecting _ :: rest => Pool.LAbort i :: stop_from (S i) rest
  | Pool.Sending _ _ :: rest =>
      Pool.LUnblock i true :: Pool.LAbort i :: stop_from (S i) rest
  | Pool.Exited _ _ :: rest => stop_from (S i) rest
  end.

Definition stop (s : Pool.state) : list Pool.label :=
  replicate (length (Chan.buf (Pool.out s))) Pool.LConsume
  ++ stop_from 0 (Pool.workers s).

(** Where [stop] leaves a goroutine. *)
Definition stopped (w : Pool.worker) : Pool.worker :=
  match w with
  | Pool.Exited how e => Pool.Exited how e
  | _ => Pool.Exited Pool.ByCancel None
  end.

(** ** [Clients.Serve]: the pools of all the clients

    [Clients.Serve] starts [Client.Serve] for every client in a goroutine
    of an outer error group and waits for them.  The pools write to the one
    channel [out]; the context of each pool is a child of the context of the
    outer group, which is done when the caller cancels or when a pool has
    returned an error. *)

Module Fleet.

Record state : Type := mkState {
  pools     : list Pool.state;   (* one per client, in the order of Clients *)
  returned  : list bool;         (* whose Client.Serve has returned *)
  out       : Chan.t Response;   (* the channel every pool writes to *)
  delivered : list Response;     (* what the reader of out has received *)
  cancelled : bool;              (* the context of the outer group is done *)
  g_err     : error              (* the first error of the outer group *)
}.

(** A pool as its goroutines see it: the shared channel and its reader, and
    a context that is done when the pool's own group has failed or when the
    context of the outer group is done. *)
Definition view (f : state) (p : Pool.state) : Pool.state :=
  Pool.mkState (Pool.endpoint p) (Pool.timeout p) (Pool.queue p)
               (Pool.stats p) (Pool.workers p) (Pool.g_err p)
               (Pool.cancelled p || cancelled f) (out f) (delivered f)
               (Pool.warnings p) (Pool.feed p) (Pool.produced p).

Inductive label : Type :=
| LCancel                              (* the caller cancels the context *)
| LConsume                             (* the reader takes from out's buffer *)
| LPool (j : nat) (l : Pool.label)     (* a move inside the pool of client j *)
| LReturn (j : nat).                   (* c.Serve(ctx, out) of client j returns *)

(** The moves of a pool that belong to it: those of its goroutines and of
    the sequencer on its queue.  Cancelling and reading [out] are moves of
    the whole. *)
Definition own (l : Pool.label) : bool :=
  match l with
  | Pool.LCancel | Pool.LConsume => false
  | _ => true
  end.

(** What the pool of client [j] leaves after a move. *)
Definition install (j : nat) (p : Pool.state) (f : state) : state :=
  mkState (<[j := p]> (pools f)) (returned f) (Pool.out p) (Pool.delivered p)
          (cancelled f) (g_err f).

(** What the outer group does when the goroutine of client [j] returns
    [r]: a first non-nil error is kept and cancels the context. *)
Definition group_return (j : nat) (r : error) (f : state) : state :=
  mkState (pools f) (<[j := true]> (returned f)) (out f) (delivered f)
          (match r with Some _ => true | None => cancelled f end)
          (match g_err f, r with
           | Some e, _ => Some e
           | None, r => r
           end).

Definition step (l : label) (f : state) : option state :=
  match l with
  | LCancel =>
      Some (mkState (pools f) (returned f) (out f) (delivered f) true (g_err f))
  | LConsume =>
      match Chan.recv (out f) with
      | Some (r, o) =>
          Some (mkState (pools f) (returned f) o (delivered f ++ [r])
                        (cancelled f) (g_err f))
      | None => None
      end
  | LPool j l =>
      if own l then
        match pools f !! j with
        | Some p =>
            match Pool.step l (view f p) with
            | Some p' => Some (install j p' f)
            | None => None
            end
        | None => None
        end
      else None
  | LReturn j =>
      match pools f !! j, returned f !! j with
      | Some p, Some false =>
          match Pool.wait p with
          | Some r => Some (group_return j r f)
          | None => None
          end
      | _, _ => None
      end
  end.

Fixpoint run (ls : list label) (f : state) : option state :=
  match ls with
  | [] => Some f
  | l :: rest =>
      match step l f with
      | Some f' => run rest f'
      | None => None
      end
  end.

(** [g.Wait()] of the outer group. *)
Definition wait (f : state) : option error :=
  if forallb id (returned f) then Some (g_err f) else None.

(** [clients.Serve(ctx, out)] once every [Client.Serve] has started; each
    client comes with the sends that the sequencer has still to make on its
    queue. *)
Definition Serve (cs : list (Client * list Request)) (ctx_done : bool)
    (o : Chan.t Response) : Clients * state :=
  (coerce_Concurrency <$> (fst <$> cs),
   {| pools := (fun ct => snd (Pool.Serve (fst ct) ctx_done o (snd ct))) <$> cs;
      returned := replicate (length cs) false;
      out := o; delivered := []; cancelled := ctx_done; g_err := None |}).

(** The responses held by goroutines of any pool that wait to send, and
    those produced by all the pools. *)
Definition in_flight (f : state) : list Response :=
  concat ((fun p => Pool.in_flight (Pool.workers p)) <$> pools f).

Definition produced (f : state) : list Response :=
  concat (Pool.produced <$> pools f).

(** Where the responses of all the pools are. *)
Definition accounted (f : state) : list Response :=
  delivered f ++ Chan.buf (out f) ++ in_flight f.

(** The moves of a schedule that are made inside the pool of client [j]. *)
Definition pool_labels (j : nat) (ls : list label) : list Pool.label :=
  omap (fun l => match l with
                 | LPool k l' => if decide (k = j) then Some l' else None
                 | _ => None
                 end) ls.

(** When the context of the outer group is done: the reader takes what is
    in the buffer of [out]; then, pool after pool, the goroutines are
    brought to their return as in [stop_from] and [Client.Serve] returns,
    unless it already has. *)
Fixpoint stop_pools (j : nat) (ps : list Pool.state) (rs : list bool)
  : list label :=
  match ps, rs with
  | p :: ps, r :: rs =>
      (LPool j <$> stop_from 0 (Pool.workers p))
      ++ (if r then [] else [LReturn j])
      ++ stop_pools (S j) ps rs
  | _, _ => []
  end.

Definition stop (f : state) : list label :=
  replicate (length (Chan.buf (out f))) LConsume
  ++ stop_pools 0 (pools f) (returned f).

(** What [stop] makes of a pool: its goroutines have returned, and nothing
    else of it has changed. *)
Definition wound_up (p q : Pool.state) : Prop :=
  Pool.workers q = stopped <$> Pool.workers p /\
  Pool.g_err q = Pool.g_err p /\
  Pool.queue q = Pool.queue p /\ Pool.feed q = Pool.feed p /\
  Pool.stats q = Pool.stats p /\ Pool.produced q = Pool.produced p.

(** What the outer group has recorded agrees with the pools that have
    returned: such a pool has no goroutine left and returned the error of
    its group; the error of the outer group is one of these, and it is nil
    only if all of them are; and it has cancelled the context. *)
Definition group_ok (f : state) : Prop :=
  length (returned f) = length (pools f) /\
  (forall j p, pools f !! j = Some p -> returned f !! j = Some true ->
     Pool.wait p = Some (Pool.g_err p)) /\
  match g_err f with
  | None =>
      forall j p, pools f !! j = Some p -> returned f !! j = Some true ->
        Pool.g_err p = None
  | Some e =>
      cancelled f = true /\
      exists j p, pools f !! j = Some p /\ returned f !! j = Some true /\
                  Pool.g_err p = Some e
  end.

End Fleet.

(* ================================================================= *)
(** * Properties *)

(** ** Machine integers *)

Lemma wrap_in_range z : GoInt.in_range (GoInt.wrap z).
Proof.
  unfold GoInt.in_range, GoInt.wrap, GoInt.min_int, GoInt.max_int.
  pose proof (Z.mod_pos_bound (z + 2 ^ 63) (2 ^ 64) ltac:(lia)). lia.
Qed.

Lemma wrap_id z : GoInt.in_range z -> GoInt.wrap z = z.
Proof.
  unfold GoInt.in_range, GoInt.wrap, GoInt.min_int, GoInt.max_int. intros H.
  rewrite Z.mod_small by lia. lia.
Qed.

Lemma add_exact a b : GoInt.in_range (a + b) -> GoInt.add a b = a + b.
Proof. apply wrap_id. Qed.

Lemma quo_nonzero a b : b <> 0 -> GoInt.quo a b = Some (GoInt.wrap (Z.quot a b)).
Proof. intros H. unfold GoInt.quo. destruct (decide (b = 0)); [lia | done]. Qed.

Lemma quo_zero a : GoInt.quo a 0 = None.
Proof. reflexivity. Qed.

(** ** [Count] *)

Lemma Count_never_panics err elapsed stats :
  exists stats', Count err elapsed stats = Returned stats'.
Proof.
  unfold Count. destruct err as [msg|]; [|eauto].
  destruct (Errors stats) as [g|]; simpl; eauto.
Qed.

Lemma get_set_same (m : gmap string Z) k v :
  GoMap.get (Some (<[k := v]> m)) k = v.
Proof. unfold GoMap.get. simpl. by rewrite lookup_insert_eq. Qed.

(** C2. [Count] returns, whatever the state and the arguments; it adds one
    to [NumTotal] and [elapsed] to [TimeTotal]; on a non-nil error it also
    adds one to [NumErrors], [elapsed] to [TimeErrors] and one to the entry
    of the error's message in [Errors], every other entry being kept; on a
    nil error these three are left as they were.  The additions are those of
    Go's [int] and [int64] (see [add_exact]). *)
Theorem Count_spec (err : error) (elapsed : Duration) (stats : clientStats) :
  exists stats',
    Count err elapsed stats = Returned stats' /\
    NumTotal stats' = GoInt.add (NumTotal stats) 1 /\
    TimeTotal stats' = GoInt.add (TimeTotal stats) elapsed /\
    match err with
    | Some msg =>
        NumErrors stats' = GoInt.add (NumErrors stats) 1 /\
        TimeErrors stats' = GoInt.add (TimeErrors stats) elapsed /\
        GoMap.get (Errors stats') msg
          = GoInt.add (GoMap.get (Errors stats) msg) 1 /\
        delete msg (GoMap.entries (Errors stats'))
          = delete msg (GoMap.entries (Errors stats))
    | None =>
        NumErrors stats' = NumErrors stats /\
        TimeErrors stats' = TimeErrors stats /\
        Errors stats' = Errors stats
    end.
Proof.
  unfold Count. destruct err as [msg|].
  - destruct (Errors stats) as [g|] eqn:E; simpl.
    + eexists. split; [reflexivity|]. simpl.
      repeat split; try reflexivity.
      * apply get_set_same.
      * apply delete_insert_eq.
    + eexists. split; [reflexivity|]. simpl.
      repeat split; try reflexivity.
      * apply get_set_same.
      * apply delete_insert_eq.
  - eexists. split; [reflexivity|]. simpl. repeat split; reflexivity.
Qed.

(** ** Runs of [Count] *)

Lemma total_comm (z1 z2 y : Z) :
  z1 + (z2 + y) = z2 + (z1 + y).
Proof. lia. Qed.

Lemma total_insert (g : gmap string Z) k v :
  GoMap.total (Some (<[k := v]> g))
  = GoMap.total (Some g) - default 0 (g !! k) + v.
Proof.
  unfold GoMap.total, GoMap.entries. simpl.
  destruct (g !! k) as [old|] eqn:E; simpl.
  - rewrite <- insert_delete_eq.
    rewrite map_fold_insert_L;
      [| intros; apply total_comm | apply lookup_delete_eq].
    rewrite (map_fold_delete_L _ _ k old g);
      [| intros; apply total_comm | exact E].
    lia.
  - rewrite map_fold_insert_L; [| intros; apply total_comm | exact E]. lia.
Qed.

Lemma total_nonneg (g : gmap string Z) :
  map_Forall (fun _ v => 0 <= v) g -> 0 <= GoMap.total (Some g).
Proof.
  unfold GoMap.total, GoMap.entries. simpl.
  induction g as [|k v g Hk IH] using map_ind; intros Hall.
  - by rewrite map_fold_empty.
  - rewrite map_fold_insert_L; [| intros; apply total_comm | exact Hk].
    apply map_Forall_insert in Hall as [Hv Hall]; [|exact Hk].
    specialize (IH Hall). lia.
Qed.

Lemma get_le_total (g : gmap string Z) k :
  map_Forall (fun _ v => 0 <= v) g ->
  0 <= GoMap.get (Some g) k <= GoMap.total (Some g).
Proof.
  intros Hall. unfold GoMap.get, GoMap.entries. simpl.
  destruct (g !! k) as [v|] eqn:E; simpl.
  - pose proof (Hall k v E) as Hv. simpl in Hv.
    assert (Hdel : map_Forall (fun _ v => 0 <= v) (delete k g)).
    { intros j w Hj. apply lookup_delete_Some in Hj as [_ Hj].
      exact (Hall j w Hj). }
    apply total_nonneg in Hdel.
    unfold GoMap.total, GoMap.entries in *. simpl in *.
    rewrite (map_fold_delete_L _ _ k v g);
      [| intros; apply total_comm | exact E].
    lia.
  - split; [lia | by apply total_nonneg].
Qed.

Lemma consistent_zero : consistent zeroStats.
Proof.
  split; simpl; try lia.
  - unfold GoMap.total. simpl. by rewrite map_fold_empty.
  - apply map_Forall_empty.
Qed.

(** One call that overflows nothing keeps the counters consistent. *)
Lemma Count_consistent err elapsed s :
  consistent s -> 0 <= elapsed ->
  NumTotal s < GoInt.max_int -> TimeTotal s + elapsed <= GoInt.max_int ->
  exists s', Count err elapsed s = Returned s' /\ consistent s' /\
    NumTotal s' = NumTotal s + 1 /\
    TimeTotal s' = TimeTotal s + elapsed /\
    TimeErrors s' = TimeErrors s + (if failed (err, elapsed) then elapsed else 0).
Proof.
  intros [[He0 He] [Ht0 Ht] Hsum Hpos] Hel Hn Htt.
  assert (Hr : forall z, 0 <= z <= GoInt.max_int -> GoInt.in_range z).
  { unfold GoInt.in_range, GoInt.min_int, GoInt.max_int. lia. }
  assert (HN : GoInt.add (NumTotal s) 1 = NumTotal s + 1)
    by (apply add_exact, Hr; lia).
  assert (HT : GoInt.add (TimeTotal s) elapsed = TimeTotal s + elapsed)
    by (apply add_exact, Hr; lia).
  unfold Count. destruct err as [msg|]; simpl.
  - assert (HE : GoInt.add (NumErrors s) 1 = NumErrors s + 1)
      by (apply add_exact, Hr; lia).
    assert (HTe : GoInt.add (TimeErrors s) elapsed = TimeErrors s + elapsed)
      by (apply add_exact, Hr; lia).
    set (g := default ∅ (Errors s)).
    assert (Hg : GoMap.total (Some g) = NumErrors s).
    { rewrite <- Hsum. unfold g. by destruct (Errors s). }
    assert (Hgp : map_Forall (fun _ v => 0 <= v) g).
    { unfold g. by destruct (Errors s). }
    pose proof (get_le_total g msg Hgp) as Hget.
    assert (Hadd : GoInt.add (GoMap.get (Some g) msg) 1
                   = GoMap.get (Some g) msg + 1)
      by (apply add_exact, Hr; lia).
    assert (Hshape :
      (if GoMap.is_nil (Errors s) then GoMap.make else Errors s) = Some g).
    { unfold g. by destruct (Errors s). }
    rewrite Hshape. simpl. rewrite Hadd.
    eexists. split; [reflexivity|]. simpl.
    rewrite HN, HT, HE, HTe. repeat split; simpl; try lia.
    + rewrite total_insert. unfold GoMap.get, GoMap.entries in *.
      simpl in *. lia.
    + apply map_Forall_insert_2; [lia | exact Hgp].
  - eexists. split; [reflexivity|]. simpl. rewrite HN, HT.
    repeat split; simpl; try lia; assumption.
Qed.

Lemma Count_each_consistent_from calls : forall s,
  consistent s ->
  Forall (fun call => 0 <= snd call) calls ->
  NumTotal s + Z.of_nat (length calls) <= GoInt.max_int ->
  TimeTotal s + sum_elapsed calls <= GoInt.max_int ->
  exists s', Count_each calls s = Returned s' /\ consistent s' /\
    NumTotal s' = NumTotal s + Z.of_nat (length calls) /\
    TimeTotal s' = TimeTotal s + sum_elapsed calls /\
    TimeErrors s' = TimeErrors s + sum_elapsed (filter (fun c => failed c) calls).
Proof.
  induction calls as [|[err elapsed] rest IH]; intros s Hs Hall Hn Ht.
  - exists s. simpl. repeat split; try lia; apply Hs.
  - apply Forall_cons in Hall as [Hel Hall]. simpl in Hel.
    assert (Hrest : 0 <= sum_elapsed rest).
    { clear -Hall. induction Hall as [|c l Hc _ IHl]; simpl; lia. }
    change (sum_elapsed ((err, elapsed) :: rest))
      with (elapsed + sum_elapsed rest) in *.
    rewrite length_cons in *.
    destruct (Count_consistent err elapsed s Hs Hel ltac:(lia) ltac:(lia))
      as (s1 & Hc & Hs1 & HN & HT & HTe).
    destruct (IH s1 Hs1 Hall ltac:(lia) ltac:(lia))
      as (s' & Hrun & Hs' & HN' & HT' & HTe').
    exists s'. simpl. rewrite Hc. split; [exact Hrun|]. split; [exact Hs'|].
    split; [lia|]. split; [lia|].
    rewrite HTe', HTe. rewrite filter_cons. unfold failed at 1 3. simpl.
    destruct err; simpl.
    + rewrite <- Z.add_assoc. reflexivity.
    + rewrite Z.add_0_r. reflexivity.
Qed.

(** C3, as amended.  After any sequence of [Count] calls with non-negative
    durations on a zeroed aggregator, as long as no counter overflows (at most
    [2^63 - 1] calls, durations adding up to at most [2^63 - 1] nanoseconds):
    [NumErrors <= NumTotal], [TimeErrors <= TimeTotal], the values of [Errors]
    add up to [NumErrors], and [TimeErrors] is the sum of the durations of the
    calls whose error was non-nil. *)
Theorem Count_each_consistent (calls : list (error * Duration)) :
  Forall (fun call => 0 <= snd call) calls ->
  Z.of_nat (length calls) <= GoInt.max_int ->
  sum_elapsed calls <= GoInt.max_int ->
  exists s', Count_each calls zeroStats = Returned s' /\
    NumErrors s' <= NumTotal s' /\
    TimeErrors s' <= TimeTotal s' /\
    GoMap.total (Errors s') = NumErrors s' /\
    TimeErrors s' = sum_elapsed (filter (fun c => failed c) calls).
Proof.
  intros Hall Hn Ht.
  destruct (Count_each_consistent_from calls zeroStats consistent_zero Hall
              ltac:(rewrite Z.add_0_l; exact Hn)
              ltac:(rewrite Z.add_0_l; exact Ht))
    as (s' & Hrun & [[_ He] [_ Hti] Hsum _] & _ & _ & HTe).
  exists s'. simpl in HTe. repeat split; try assumption.
Qed.

Lemma Count_each_consistent_witness :
  exists s', Count_each [(Some "refused", 7); (None, 5); (Some "refused", 2)]
                        zeroStats = Returned s' /\
    NumErrors s' <= NumTotal s' /\
    TimeErrors s' <= TimeTotal s' /\
    GoMap.total (Errors s') = NumErrors s' /\
    TimeErrors s' = 9.
Proof.
  apply (Count_each_consistent
           [(Some "refused", 7); (None, 5); (Some "refused", 2)]).
  - repeat constructor; simpl; lia.
  - vm_compute. discriminate.
  - vm_compute. discriminate.
Defined.

(** C3 as stated fails once a counter overflows: two successful calls of
    [2^63 - 1] nanoseconds each leave [TimeTotal] at [-2], below
    [TimeErrors], which is [0]. *)
Lemma Count_each_overflow :
  Forall (fun call => 0 <= snd call)
         [(None, GoInt.max_int); (None : error, GoInt.max_int)] /\
  exists s', Count_each [(None, GoInt.max_int); (None, GoInt.max_int)]
                        zeroStats = Returned s' /\
    TimeTotal s' = -2 /\ TimeErrors s' = 0 /\
    ~ TimeErrors s' <= TimeTotal s'.
Proof.
  split.
  - repeat constructor; vm_compute; discriminate.
  - eexists. split; [reflexivity|]. vm_compute.
    repeat split; try reflexivity. intros H. apply H. reflexivity.
Qed.

(** ** [Render] *)

Lemma div_by_zero_nan_or_inf (x : float64) :
  is_nan_or_inf (float64_div x (float64_of_int 0)) = true.
Proof. destruct x as [sx|sx| |sx mx ex]; reflexivity. Qed.

(** C1.  On an aggregator with [NumTotal = 0], [Render] prints
    [No requests.] and goes on: it divides by the zero total, which gives a
    NaN or an infinity for the error rate, and then panics in the integer
    division of [TimeTotal] by [NumTotal], having printed nothing else. *)
Theorem Render_no_requests (W : Writer) (order : range_order)
    (stats : clientStats) (w : w_state W) :
  NumTotal stats = 0 ->
  Render W order stats w
    = (fprintf_ W w (Fprintf "   No requests." []),
       Panicked "integer divide by zero") /\
  is_nan_or_inf (Render_errRate stats) = true.
Proof.
  intros H0. split.
  - unfold Render. rewrite H0, quo_zero.
    destruct (decide (0 = 0)); [reflexivity | contradiction].
  - unfold Render_errRate. rewrite H0. apply div_by_zero_nan_or_inf.
Qed.

Lemma Render_no_requests_witness :
  Render logWriter anyOrder zeroStats []
    = ([Fprintf "   No requests." []], Panicked "integer divide by zero") /\
  is_nan_or_inf (Render_errRate zeroStats) = true.
Proof. apply (Render_no_requests logWriter anyOrder zeroStats []). reflexivity. Defined.

(** C10.  Whatever the writer does, [Render] returns the nil error exactly
    when [NumTotal] is not zero; when it is zero [Render] does not return, it
    panics. *)
Theorem Render_result (W : Writer) (order : range_order)
    (stats : clientStats) (w : w_state W) :
  snd (Render W order stats w)
  = if decide (NumTotal stats = 0) then Panicked "integer divide by zero"
    else Returned None.
Proof.
  unfold Render. destruct (decide (NumTotal stats = 0)) as [H0|Hn].
  - rewrite H0, quo_zero. reflexivity.
  - rewrite quo_nonzero by exact Hn.
    destruct (decide (0 < NumErrors stats /\ NumErrors stats <> NumTotal stats))
      as [[Hpos _]|_]; [|reflexivity].
    rewrite quo_nonzero by lia. reflexivity.
Qed.

Lemma quot_in_range a b :
  GoInt.in_range a -> 0 < b -> GoInt.wrap (Z.quot a b) = Z.quot a b.
Proof.
  intros Ha Hb. apply wrap_id.
  unfold GoInt.in_range, GoInt.min_int, GoInt.max_int in *.
  destruct (Z.le_gt_cases 0 a) as [Hpos|Hneg].
  - pose proof (Z.quot_pos a b Hpos Hb).
    pose proof (Z.quot_le_upper_bound a b a Hb ltac:(nia)). lia.
  - assert (Hq : Z.quot a b = - Z.quot (- a) b).
    { rewrite Z.quot_opp_l by lia. lia. }
    pose proof (Z.quot_pos (- a) b ltac:(lia) Hb).
    pose proof (Z.quot_le_upper_bound (- a) b (- a) Hb ltac:(nia)). lia.
Qed.

Lemma fold_left_fprintf_lines (W : Writer) (lines : list (string * Z)) :
  forall w : w_state W,
  fold_left (fun w e => fprintf_ W w (error_line e)) lines w
  = fold_left (fprintf_ W) (error_line <$> lines) w.
Proof. induction lines as [|e rest IH]; intros w; simpl; [reflexivity | apply IH]. Qed.

(** C8, as amended.  On an aggregator with [NumTotal > 0] and with
    [100 * NumErrors] still an [int], [Render] returns nil after printing
    exactly the report of the specification: requests per second, the mean
    error latency if and only if some but not all requests failed, the
    average latency, the error rate, and one line per entry of [Errors] with
    its count, the lines being the entries of the map in some order. *)
Theorem Render_report (W : Writer) (order : range_order)
    (stats : clientStats) (w : w_state W) :
  representable stats ->
  0 < NumTotal stats ->
  GoInt.in_range (100 * NumErrors stats) ->
  let lines := range_of order (GoMap.entries (Errors stats)) in
  Render W order stats w
    = (fold_left (fprintf_ W) (report lines stats) w, Returned None) /\
  lines ≡ₚ map_to_list (GoMap.entries (Errors stats)) /\
  NoDup (fst <$> lines) /\
  ((exists d, per_error_call d ∈ report lines stats)
   <-> 0 < NumErrors stats /\ NumErrors stats <> NumTotal stats).
Proof.
  intros [HN HE HTe HTt] Hpos Hprod lines.
  assert (Hperm : lines ≡ₚ map_to_list (GoMap.entries (Errors stats)))
    by apply range_of_perm.
  split; [|split; [exact Hperm|split]].
  - unfold Render, report.
    destruct (decide (NumTotal stats = 0)) as [H0|_]; [lia|].
    rewrite quo_nonzero by lia. rewrite quot_in_range by assumption.
    unfold some_not_all_failed.
    assert (Hrate : Render_errRate stats = error_rate stats).
    { unfold Render_errRate, error_rate, GoInt.mul.
      by rewrite (Z.mul_comm (NumErrors stats)), wrap_id. }
    destruct (decide (0 < NumErrors stats /\ NumErrors stats <> NumTotal stats))
      as [[HposE _]|_].
    + rewrite quo_nonzero by lia. rewrite quot_in_range by assumption.
      simpl. rewrite fold_left_fprintf_lines, Hrate.
      reflexivity.
    + simpl. rewrite fold_left_fprintf_lines, Hrate.
      reflexivity.
  - rewrite Hperm. apply NoDup_fst_map_to_list.
  - unfold report, some_not_all_failed, per_error_call.
    destruct (decide (0 < NumErrors stats /\ NumErrors stats <> NumTotal stats))
      as [Hc|Hc].
    + split; [intros _; exact Hc|]. intros _.
      exists (mean_error_latency stats). simpl.
      apply elem_of_cons. right. apply elem_of_cons. left. reflexivity.
    + split; [|intros Hc'; contradiction]. intros [d Hd].
      exfalso. simpl in Hd.
      apply elem_of_cons in Hd as [Hd|Hd]; [discriminate|].
      apply elem_of_cons in Hd as [Hd|Hd]; [discriminate|].
      apply elem_of_cons in Hd as [Hd|Hd]; [discriminate|].
      apply elem_of_cons in Hd as [Hd|Hd]; [discriminate|].
      apply list_elem_of_fmap in Hd as (e & He & _). discriminate.
Qed.

Lemma Render_report_witness :
  Render logWriter anyOrder
         {| NumTotal := 3; NumErrors := 1; TimeErrors := 5000;
            TimeTotal := 2500000000; Errors := Some {[ "refused" := 1 ]} |} []
  = ([Fprintf "   Requests/Sec: %0.2f"
              [OpFloat (S754_finite false 5404319552844595 (-52))];
      Fprintf ", %s per error" [OpDuration 5000];
      Fprintf nl [];
      Fprintf ("   Average:      %s" ++ nl) [OpDuration 833333333];
      Fprintf ("   Errors:       %0.2f%%" ++ nl)
              [OpFloat (S754_finite false 4691249611844267 (-47))];
      Fprintf ("   * [%d] %q" ++ nl) [OpInt 1; OpString "refused"]],
     Returned None).
Proof.
  pose proof (Render_report logWriter anyOrder
    {| NumTotal := 3; NumErrors := 1; TimeErrors := 5000;
       TimeTotal := 2500000000; Errors := Some {[ "refused" := 1 ]} |} []) as H.
  destruct H as [H _].
  - split; vm_compute; split; discriminate.
  - reflexivity.
  - vm_compute. split; discriminate.
  - rewrite H. vm_compute. reflexivity.
Defined.

(** C8 as stated fails when [100 * NumErrors] is not an [int]: the code
    multiplies in [int] before it converts.  With 92233720368547759 errors
    out of [10^17] requests the product wraps to a negative number, and the
    rate that is printed is about [-92.23] where [100 * NumErrors / NumTotal]
    is about [92.23]. *)
Lemma Render_error_rate_overflow :
  let stats := {| NumTotal := 100000000000000000;
                  NumErrors := 92233720368547759;
                  TimeErrors := 0; TimeTotal := 100000000000000000;
                  Errors := GoMap.nil |} in
  representable stats /\ 0 < NumTotal stats /\
  ~ GoInt.in_range (100 * NumErrors stats) /\
  error_rate stats = S754_finite false 6490371073168535 (-46) /\
  Render logWriter anyOrder stats []
  = ([Fprintf "   Requests/Sec: %0.2f"
              [OpFloat (S754_finite false 8388608000000000 (-23))];
      Fprintf ", %s per error" [OpDuration 0];
      Fprintf nl [];
      Fprintf ("   Average:      %s" ++ nl) [OpDuration 1];
      Fprintf ("   Errors:       %0.2f%%" ++ nl)
              [OpFloat (S754_finite true 6490371073168535 (-46))]],
     Returned None) /\
  fst (Render logWriter anyOrder stats []) <> report [] stats.
Proof.
  split; [split; vm_compute; split; discriminate|].
  split; [reflexivity|].
  split; [vm_compute; intros [_ Hle]; apply Hle; reflexivity|].
  split; [vm_compute; reflexivity|].
  split; [vm_compute; reflexivity|].
  vm_compute. discriminate.
Qed.

(** A writer that fails on every call changes nothing to the result. *)
Example Render_broken_writer :
  Render brokenWriter anyOrder
         {| NumTotal := 1; NumErrors := 0; TimeErrors := 0; TimeTotal := 5;
            Errors := GoMap.nil |} tt
  = (tt, Returned None).
Proof. reflexivity. Qed.

(** ** Construction of clients *)

(** A channel is bounded: a send waits when the buffer is full. *)
Lemma Chan_send_full {A} (c : Chan.t A) (x : A) :
  (Chan.cap c <= length (Chan.buf c))%nat -> Chan.send c x = None.
Proof.
  intros Hfull. unfold Chan.send, Chan.has_room.
  rewrite bool_decide_eq_false_2 by lia. reflexivity.
Qed.

(** A channel is first in, first out: what is sent is received after
    everything that was in the buffer before it. *)
Lemma Chan_fifo {A} (c c' : Chan.t A) (x : A) :
  Chan.send c x = Some c' ->
  Chan.buf c' = Chan.buf c ++ [x] /\
  Chan.recv c' = Some (hd x (Chan.buf c),
                       Chan.mk (Chan.cap c) (tl (Chan.buf c ++ [x]))).
Proof.
  unfold Chan.send. destruct (Chan.has_room c); [|discriminate].
  intros [= <-]. split; [reflexivity|].
  unfold Chan.recv. simpl. by destruct (Chan.buf c).
Qed.

Lemma Serve_workers_coerced (c : Client) :
  Serve_workers c = Z.to_nat (Z.max 1 (Concurrency c)) /\
  (1 <= Serve_workers c)%nat.
Proof.
  unfold Serve_workers, coerce_Concurrency, loop_count.
  destruct (decide (Concurrency c < 1)); simpl; lia.
Qed.

(** C6, as amended.  [Serve] starts at least one worker for every client,
    a concurrency below one being coerced to one when it starts.  The queue
    is built by [NewClient], from the concurrency that is asked for: for a
    concurrency of at least one whose double is an [int] and no more than
    the runtime accepts as the size of a channel, it is empty and its
    capacity is twice the number of workers; beyond what the runtime accepts,
    [NewClient] panics in [make] and there is no queue. *)
Theorem NewClient_queue `{Runtime} (endpoint : string) (concurrency : Z)
    (any : Client) :
  1 <= concurrency -> 2 * concurrency <= GoInt.max_int ->
  (Serve_workers any = Z.to_nat (Z.max 1 (Concurrency any)) /\
   (1 <= Serve_workers any)%nat) /\
  (2 * concurrency <= max_chan ->
   exists c, NewClient endpoint concurrency = Returned (c, None) /\
     Concurrency c = concurrency /\
     Serve_workers c = Z.to_nat concurrency /\
     Chan.buf (In c) = [] /\
     Chan.cap (In c) = (2 * Serve_workers c)%nat) /\
  (max_chan < 2 * concurrency ->
   NewClient endpoint concurrency = Panicked "makechan: size out of range").
Proof.
  intros H1 Hmax. split; [apply Serve_workers_coerced|].
  unfold NewClient, Chan.make.
  unfold GoInt.mul. rewrite wrap_id
    by (unfold GoInt.in_range, GoInt.min_int, GoInt.max_int in *; lia).
  split; intros Hlim.
  - rewrite decide_False by lia.
    eexists. split; [reflexivity|]. simpl.
    unfold Serve_workers, coerce_Concurrency, loop_count. simpl.
    destruct (decide (concurrency < 1)); [lia|]. simpl.
    repeat split; lia.
  - by rewrite decide_True by lia.
Qed.

Lemma NewClient_queue_witness :
  exists c, NewClient "a" 2 = Returned (c, None) /\
    Serve_workers c = 2%nat /\ Chan.cap (In c) = 4%nat.
Proof.
  destruct (NewClient_queue "a" 2 (mkClient "b" 0 0 (Chan.mk 0 []) zeroStats))
    as (_ & Hret & _).
  - lia.
  - vm_compute. discriminate.
  - destruct Hret as (c & Hc & _ & Hw & _ & Hcap);
      [vm_compute; discriminate|].
    exists c. split; [exact Hc|]. split; [exact Hw|].
    rewrite Hcap, Hw. reflexivity.
Defined.

(** C6 as stated fails below one: the queue is sized before [Serve] coerces
    the concurrency.  Asked for zero, [NewClient] builds a queue of capacity
    zero, not twice the one worker that [Serve] starts; asked for [-1], it
    panics. *)
Lemma NewClient_below_one :
  (exists c, NewClient "a" 0 = Returned (c, None) /\
     Serve_workers c = 1%nat /\
     Concurrency (coerce_Concurrency c) = 1 /\
     Chan.cap (In (coerce_Concurrency c)) = 0%nat /\
     Z.of_nat (Chan.cap (In (coerce_Concurrency c)))
       <> 2 * Concurrency (coerce_Concurrency c)) /\
  NewClient "a" (-1) = Panicked "makechan: size out of range".
Proof.
  split; [|reflexivity].
  eexists. split; [reflexivity|]. vm_compute.
  repeat split; try reflexivity. discriminate.
Qed.

(** ** [Send] *)

Lemma Send_loop_uncancelled now resolve ctx_err id line :
  (forall i, resolve i = CaseSend) ->
  forall (c : Clients) (i : nat),
    Send_loop now resolve ctx_err id line i c
    = (imap (fun j _ => ((i + j)%nat,
                         {| client := Some (i + j)%nat; ID := id; Line := line;
                            Timestamp := now (i + j)%nat |})) c, None).
Proof.
  intros Hres c. induction c as [|cl rest IH]; intros i; simpl.
  - reflexivity.
  - rewrite Hres, (IH (S i)). rewrite Nat.add_0_r. f_equal. f_equal.
    apply imap_ext. intros j x _. simpl.
    replace (i + S j)%nat with (S (i + j)) by lia. reflexivity.
Qed.

Lemma Send_assigns now resolve ctx_err id c line :
  fst (fst (Send now resolve ctx_err id c line)) = GoInt.add id 1.
Proof.
  unfold Send. by destruct (Send_loop now resolve ctx_err _ line 0%nat c).
Qed.

Lemma Send_uncancelled now resolve ctx_err id c line :
  (forall i, resolve i = CaseSend) ->
  Send now resolve ctx_err id c line
  = (GoInt.add id 1, broadcast (GoInt.add id 1) line now c, None).
Proof.
  intros Hres. unfold Send.
  rewrite (Send_loop_uncancelled now resolve ctx_err _ line Hres c 0%nat).
  reflexivity.
Qed.

(** The counter after a run: one more per call, cancelled or not. *)
Lemma Send_each_snoc ctx_err c calls : forall id call,
  0 <= id -> id + Z.of_nat (length calls) < GoInt.max_int ->
  assigned (Send_each ctx_err id c calls)
    = seqZ (id + 1) (Z.of_nat (length calls)) /\
  Send_each ctx_err id c (calls ++ [call])
    = Send_each ctx_err id c calls
      ++ [Send (sc_now call) (sc_resolve call) ctx_err
               (id + Z.of_nat (length calls)) c (sc_line call)].
Proof.
  induction calls as [|k rest IH]; intros id call Hid Hmax.
  - simpl. rewrite Z.add_0_r. split; reflexivity.
  - rewrite length_cons in Hmax. simpl.
    rewrite Send_assigns.
    assert (Hadd : GoInt.add id 1 = id + 1).
    { apply add_exact.
      unfold GoInt.in_range, GoInt.min_int, GoInt.max_int in *. lia. }
    rewrite Hadd.
    destruct (IH (id + 1) call ltac:(lia) ltac:(lia)) as [Hids Happ].
    split.
    + unfold assigned in *. simpl. rewrite Hids.
      rewrite (seqZ_cons (id + 1)) by lia. do 2 f_equal; lia.
    + rewrite Happ. do 4 f_equal. lia.
Qed.

Lemma broadcast_clients id line now (c : Clients) :
  fst <$> broadcast id line now c = seq 0 (length c) /\
  Forall (fun s => ID (snd s) = id /\ Line (snd s) = line)
         (broadcast id line now c).
Proof.
  unfold broadcast. split.
  - apply list_eq. intros j.
    rewrite list_lookup_fmap, list_lookup_imap.
    unfold Clients in c.
    destruct (c !! j) as [cl|] eqn:E; simpl.
    + apply lookup_lt_Some in E. rewrite lookup_seq_lt by lia. reflexivity.
    + apply lookup_ge_None in E. rewrite lookup_seq_ge by lia. reflexivity.
  - apply Forall_forall. intros s Hs.
    apply elem_of_lookup_imap in Hs as (i & cl & -> & _). split; reflexivity.
Qed.

(** C4.  In a run of [Send] calls by one producer, the call that comes after
    [n] earlier ones (fewer than [2^63 - 1], so that the counter has not
    run through the [int] type) assigns the identifier [n + 1]: one for the
    first call, and more than every identifier assigned before.  If none of
    its selects is resolved by cancellation, it returns nil after one send
    per client, in the order of the clients, each of a request that carries
    that identifier and the payload. *)
Theorem Send_broadcast (ctx_err : string) (c : Clients)
    (earlier : list send_call) (call : send_call) :
  Z.of_nat (length earlier) < GoInt.max_int ->
  (forall i, sc_resolve call i = CaseSend) ->
  exists id sends,
    Send_each ctx_err id_init c (earlier ++ [call])
      = Send_each ctx_err id_init c earlier ++ [(id, sends, None)] /\
    id = Z.of_nat (length earlier) + 1 /\
    Forall (fun prev => prev < id)
           (assigned (Send_each ctx_err id_init c earlier)) /\
    sends = broadcast id (sc_line call) (sc_now call) c /\
    fst <$> sends = seq 0 (length c) /\
    Forall (fun s => ID (snd s) = id /\ Line (snd s) = sc_line call) sends.
Proof.
  intros Hmax Hres.
  destruct (Send_each_snoc ctx_err c earlier id_init call)
    as [Hids Happ]; [unfold id_init; lia | unfold id_init; lia |].
  rewrite Send_uncancelled in Happ by exact Hres.
  assert (Hadd : GoInt.add (id_init + Z.of_nat (length earlier)) 1
                 = Z.of_nat (length earlier) + 1).
  { unfold id_init. rewrite add_exact; [lia|].
    unfold GoInt.in_range, GoInt.min_int, GoInt.max_int in *. lia. }
  rewrite Hadd in Happ.
  eexists _, _. split; [exact Happ|]. split; [reflexivity|].
  split; [|split; [reflexivity | apply broadcast_clients]].
  rewrite Hids. apply Forall_forall. intros prev Hin.
  apply elem_of_seqZ in Hin. unfold id_init in Hin. lia.
Qed.

Lemma Send_broadcast_witness :
  exists id sends,
    Send_each "context canceled" id_init
      [{| Endpoint := "a"; Concurrency := 1; Timeout := 0;
          In := Chan.mk 2 []; Stats := zeroStats |};
       {| Endpoint := "b"; Concurrency := 1; Timeout := 0;
          In := Chan.mk 2 []; Stats := zeroStats |}]
      [mkSendCall [] (fun _ => 0) (fun _ => CaseDone);
       mkSendCall [] (fun _ => 7) (fun _ => CaseSend)]
    = [(1, [], Some "context canceled"); (id, sends, None)] /\
    id = 2 /\
    sends = [(0%nat, mkRequest (Some 0%nat) 2 [] 7);
             (1%nat, mkRequest (Some 1%nat) 2 [] 7)].
Proof.
  destruct (Send_broadcast "context canceled"
    [{| Endpoint := "a"; Concurrency := 1; Timeout := 0;
        In := Chan.mk 2 []; Stats := zeroStats |};
     {| Endpoint := "b"; Concurrency := 1; Timeout := 0;
        In := Chan.mk 2 []; Stats := zeroStats |}]
    [mkSendCall [] (fun _ => 0) (fun _ => CaseDone)]
    (mkSendCall [] (fun _ => 7) (fun _ => CaseSend)))
    as (id & sends & Hrun & Hid & _ & Hsends & _).
  - vm_compute. reflexivity.
  - intros i. reflexivity.
  - exists id, sends. subst id sends. split; [exact Hrun|].
    split; reflexivity.
Defined.

(** ** The worker pool *)

Import Pool.

Lemma sum_list_with_insert {A} (f : A -> nat) (l : list A) :
  forall i old new, l !! i = Some old ->
  (sum_list_with f (<[i := new]> l) + f old = sum_list_with f l + f new)%nat.
Proof.
  induction l as [|x l IH]; intros [|i] old new H; simplify_eq/=; try lia.
  specialize (IH i old new H). lia.
Qed.

Lemma in_flight_app ws1 ws2 :
  in_flight (ws1 ++ ws2) = in_flight ws1 ++ in_flight ws2.
Proof.
  induction ws1 as [|w ws1 IH]; simpl; [reflexivity|].
  by rewrite IH, app_assoc.
Qed.

Lemma in_flight_insert (ws : list worker) :
  forall i old new, ws !! i = Some old ->
  in_flight (<[i := new]> ws) ++ flight old ≡ₚ in_flight ws ++ flight new.
Proof.
  induction ws as [|w ws IH]; intros [|i] old new H; simplify_eq/=.
  - rewrite (Permutation_app_comm (flight new ++ in_flight ws) (flight old)).
    rewrite <- app_assoc. f_equiv. apply Permutation_app_comm.
  - rewrite <- !app_assoc. f_equiv. by apply IH.
Qed.

(** Every way in which a label can move a pool. *)
Ltac step_inv H :=
  unfold step, handle, forward, out_send in H;
  repeat case_match; simplify_eq.

Lemma step_g_err l s s' :
  step l s = Some s' ->
  g_err s' = match g_err s with
             | Some e => Some e
             | None => head (construct_errors [l])
             end.
Proof.
  intros H. destruct l; step_inv H; simpl; try by destruct (g_err s).
Qed.




Lemma run_app ls1 ls2 s :
  run (ls1 ++ ls2) s = run ls1 s ≫= run ls2.
Proof.
  revert s. induction ls1 as [|l ls1 IH]; intros s; simpl; [reflexivity|].
  destruct (step l s); [apply IH | reflexivity].
Qed.

(** [stop] brings every goroutine to its return. *)

Lemma run_consume_all n : forall s,
  length (Chan.buf (out s)) = n ->
  run (replicate n LConsume) s
  = Some (mkState (endpoint s) (timeout s) (queue s) (stats s) (workers s)
                  (g_err s) (cancelled s) (Chan.mk (Chan.cap (out s)) [])
                  (delivered s ++ Chan.buf (out s)) (warnings s) (feed s)
                  (produced s)).
Proof.
  induction n as [|n IH]; intros s Hlen.
  - apply nil_length_inv in Hlen.
    destruct s as [? ? ? ? ? ? ? [cap buf] ? ? ? ?]. simpl in *. subst.
    by rewrite app_nil_r.
  - simpl. unfold Chan.recv.
    destruct (Chan.buf (out s)) as [|r rest] eqn:Eb; [discriminate|].
    rewrite IH by (simpl in *; lia). simpl. by rewrite <- app_assoc.
Qed.

Lemma run_stop_from todo : forall done s,
  workers s = done ++ todo ->
  Chan.buf (out s) = [] ->
  cancelled s = true ->
  run (stop_from (length done) todo) s
  = Some (mkState (endpoint s) (timeout s) (queue s) (stats s)
                  (done ++ (stopped <$> todo))
                  (g_err s) true (out s)
                  (delivered s ++ in_flight todo) (warnings s) (feed s)
                  (produced s)).
Proof.
  induction todo as [|w todo IH]; intros done s Hws Hbuf Hc.
  - rewrite app_nil_r in Hws. simpl. rewrite !app_nil_r, <- Hws, <- Hc.
    by destruct s.
  - assert (Hi : workers s !! length done = Some w).
    { rewrite Hws. by apply list_lookup_middle. }
    assert (Hins : forall w',
      <[length done := w']> (workers s) = (done ++ [w']) ++ todo).
    { intros w'. rewrite Hws, insert_app_r_alt by lia.
      rewrite Nat.sub_diag. simpl. by rewrite <- app_assoc. }
    assert (Hlen : forall w', length (done ++ [w']) = S (length done)).
    { intros w'. rewrite length_app. simpl. lia. }
    destruct w as [|t|t resp|how e]; simpl.
    + rewrite Hi. simpl.
      rewrite list_lookup_insert_eq by (rewrite Hws, length_app; simpl; lia).
      rewrite Hc. rewrite <- (Hlen (Exited ByCancel None)).
      rewrite (IH (done ++ [Exited ByCancel None]));
        [ | simpl; rewrite list_insert_insert_eq; apply Hins
          | exact Hbuf | exact Hc ].
      simpl. by rewrite <- !app_assoc.
    + rewrite Hi, Hc. rewrite <- (Hlen (Exited ByCancel None)).
      rewrite (IH (done ++ [Exited ByCancel None]));
        [ | simpl; apply Hins | exact Hbuf | exact Hc ].
      simpl. by rewrite <- !app_assoc.
    + rewrite Hi. unfold out_send. rewrite Hbuf. simpl.
      rewrite list_lookup_insert_eq by (rewrite Hws, length_app; simpl; lia).
      rewrite Hc. rewrite <- (Hlen (Exited ByCancel None)).
      rewrite (IH (done ++ [Exited ByCancel None]));
        [ | simpl; rewrite list_insert_insert_eq; apply Hins
          | exact Hbuf | exact Hc ].
      simpl. by rewrite <- !app_assoc.
    + rewrite <- (Hlen (Exited how e)).
      rewrite (IH (done ++ [Exited how e]));
        [ | by rewrite Hws, <- app_assoc | exact Hbuf | exact Hc ].
      simpl. by rewrite <- !app_assoc.
Qed.










(** ** No response is lost *)

Lemma send_Some {A} (c c' : Chan.t A) (x : A) :
  Chan.send c x = Some c' ->
  c' = Chan.mk (Chan.cap c) (Chan.buf c ++ [x]) /\ Chan.has_room c = true.
Proof. unfold Chan.send. destruct (Chan.has_room c); naive_solver. Qed.

Lemma send_None {A} (c : Chan.t A) (x : A) :
  Chan.send c x = None -> Chan.has_room c = false.
Proof. unfold Chan.send. by destruct (Chan.has_room c). Qed.

Lemma recv_Some {A} (c c' : Chan.t A) (x : A) :
  Chan.recv c = Some (x, c') ->
  exists rest, Chan.buf c = x :: rest /\ c' = Chan.mk (Chan.cap c) rest.
Proof. unfold Chan.recv. destruct (Chan.buf c); naive_solver. Qed.

(** What is known of the channels after a step has been taken apart. *)
Ltac chan_inv :=
  repeat match goal with
         | H : Chan.send _ _ = Some _ |- _ => apply send_Some in H as [-> ?]
         | H : Chan.send _ _ = None |- _ => apply send_None in H
         | H : Chan.recv _ = Some _ |- _ =>
             apply recv_Some in H as (? & ? & ->)
         end.

Lemma step_accounted l s s' :
  step l s = Some s' ->
  exists new, produced s' = produced s ++ new /\
              accounted s' ≡ₚ accounted s ++ new.
Proof.
  intros H. destruct l; step_inv H; unfold accounted; simpl;
    try match goal with
        | Hl : workers ?s0 !! ?i = Some ?old
          |- context [<[?i := ?new]> (workers ?s0)] =>
            pose proof (in_flight_insert (workers s0) i old new Hl) as HF;
            simpl in HF; rewrite ?app_nil_r in HF
        end.
  all: chan_inv; simpl;
    repeat match goal with Hb : Chan.buf _ = _ |- _ => rewrite Hb end.
  all: first [ exists []; split; [by rewrite app_nil_r|]
             | eexists; split; [reflexivity|] ].
  all: first [ rewrite HF | rewrite <- HF | idtac ]; solve_Permutation.
Qed.

Lemma run_accounted ls : forall s s',
  run ls s = Some s' ->
  exists new, produced s' = produced s ++ new /\
              accounted s' ≡ₚ accounted s ++ new.
Proof.
  induction ls as [|l rest IH]; intros s s' H; simpl in H.
  - simplify_eq. exists []. by rewrite !app_nil_r.
  - destruct (step l s) as [s1|] eqn:E; [|discriminate].
    destruct (step_accounted _ _ _ E) as (n1 & Hp1 & Ha1).
    destruct (IH _ _ H) as (n2 & Hp2 & Ha2).
    exists (n1 ++ n2). split.
    + by rewrite Hp2, Hp1, app_assoc.
    + by rewrite Ha2, Ha1, app_assoc.
Qed.

(** The reader empties the buffer of [out]. *)
Lemma run_consume n : forall s,
  length (Chan.buf (out s)) = n ->
  exists s', run (replicate n LConsume) s = Some s' /\
    Chan.buf (out s') = [] /\
    delivered s' = delivered s ++ Chan.buf (out s) /\
    workers s' = workers s /\ produced s' = produced s.
Proof.
  induction n as [|n IH]; intros s Hlen.
  - exists s. apply nil_length_inv in Hlen. rewrite Hlen, app_nil_r. done.
  - simpl. unfold Chan.recv.
    destruct (Chan.buf (out s)) as [|r rest] eqn:Eb; [discriminate|].
    destruct (IH (hand_over r (put_out (Chan.mk (Chan.cap (out s)) rest) s)))
      as (s' & Hrun & Hb & Hd & Hw & Hp).
    { simpl in *. lia. }
    exists s'. simpl in *. rewrite Hd, <- app_assoc. done.
Qed.

(** With the buffer empty, the reader takes the response of every goroutine
    that waits in the second send. *)
Lemma run_unblock todo : forall done s,
  workers s = done ++ todo ->
  Chan.buf (out s) = [] ->
  exists s', run (unblock_from (length done) todo) s = Some s' /\
    Chan.buf (out s') = [] /\
    delivered s' = delivered s ++ in_flight todo /\
    in_flight (workers s') = in_flight done /\
    produced s' = produced s.
Proof.
  induction todo as [|w todo IH]; intros done s Hws Hbuf.
  - exists s. simpl. rewrite Hws, !app_nil_r. done.
  - assert (Hi : workers s !! length done = Some w).
    { rewrite Hws. by apply list_lookup_middle. }
    assert (Hnext : forall w' s1,
      workers s1 = <[length done := w']> (workers s) ->
      workers s1 = (done ++ [w']) ++ todo).
    { intros w' s1 ->. rewrite Hws.
      rewrite insert_app_r_alt by lia. rewrite Nat.sub_diag. simpl.
      by rewrite <- app_assoc. }
    destruct w as [|t|t resp|how e]; simpl.
    1, 2, 4:
      match type of Hi with
      | _ = Some ?w =>
          destruct (IH (done ++ [w]) s) as (s' & Hrun & Hb & Hd & Hf & Hp)
      end;
        [ rewrite Hws, <- app_assoc; reflexivity | exact Hbuf | ];
        rewrite length_app, Nat.add_comm in Hrun; simpl in Hrun;
        exists s'; rewrite in_flight_app in Hf; simpl in Hf;
        rewrite app_nil_r in Hf; done.
    rewrite Hi. unfold out_send. rewrite Hbuf. simpl.
    destruct (IH (done ++ [Selecting t])
                 (set_worker (length done) (Selecting t) (hand_over resp s)))
      as (s' & Hrun & Hb & Hd & Hf & Hp).
    { apply Hnext. reflexivity. }
    { exact Hbuf. }
    rewrite length_app, Nat.add_comm in Hrun. simpl in Hrun.
    exists s'. rewrite in_flight_app in Hf. simpl in *.
    rewrite app_nil_r in Hf. rewrite Hd, <- app_assoc. done.
Qed.

Lemma run_drain s :
  exists s', run (drain s) s = Some s' /\
    delivered s' = accounted s /\
    Chan.buf (out s') = [] /\ in_flight (workers s') = [] /\
    produced s' = produced s.
Proof.
  unfold drain. rewrite run_app.
  destruct (run_consume _ s eq_refl) as (s1 & Hrun1 & Hb1 & Hd1 & Hw1 & Hp1).
  rewrite Hrun1. simpl.
  destruct (run_unblock (workers s1) [] s1 eq_refl Hb1)
    as (s2 & Hrun2 & Hb2 & Hd2 & Hf2 & Hp2).
  simpl in Hrun2. rewrite <- Hw1, Hrun2.
  exists s2. unfold accounted.
  rewrite Hd2, Hd1, Hw1, <- app_assoc, Hp2, Hp1. done.
Qed.

(** The select that forwards a response: the send is taken when it can
    complete at once (room in the buffer, or the reader waiting); only
    otherwise is the warning logged and the goroutine left in the second,
    blocking send, still holding the response. *)
Lemma forward_spec i t parked resp s :
  if (parked && bool_decide (Chan.buf (out s) = [])) || Chan.has_room (out s)
  then warnings (forward i t parked resp s) = warnings s /\
       workers (forward i t parked resp s) = <[i := Selecting t]> (workers s) /\
       delivered (forward i t parked resp s)
         ++ Chan.buf (out (forward i t parked resp s))
       ≡ₚ (delivered s ++ Chan.buf (out s)) ++ [resp]
  else warnings (forward i t parked resp s) = S (warnings s) /\
       workers (forward i t parked resp s) = <[i := Sending t resp]> (workers s) /\
       out (forward i t parked resp s) = out s /\
       delivered (forward i t parked resp s) = delivered s.
Proof.
  unfold forward, out_send, Chan.send.
  destruct (parked && bool_decide (Chan.buf (out s) = [])) eqn:Ehand; simpl.
  - repeat split. solve_Permutation.
  - destruct (Chan.has_room (out s)); simpl; repeat split.
    solve_Permutation.
Qed.

(** C7.  In every state that a pool can reach, each response that a
    transport has returned is with the reader of [out], in the buffer of
    [out], or held by a goroutine that waits in the second send: none has
    been dropped.  From that state, a reader that keeps receiving gets all of
    them.  And a response is sent at once when [out] can take it; only when it
    cannot is the warning logged and the blocking send entered. *)
Theorem responses_never_dropped (c : Client) (ctx_done : bool)
    (o : Chan.t Response) (todo : list Request) (ls : list label) (s : state) :
  run ls (snd (Serve c ctx_done o todo)) = Some s ->
  accounted s ≡ₚ Chan.buf o ++ produced s /\
  (exists s', run (drain s) s = Some s' /\
     delivered s' ≡ₚ Chan.buf o ++ produced s /\
     produced s' = produced s /\
     Chan.buf (out s') = [] /\ in_flight (workers s') = []) /\
  (forall i t parked resp,
     if (parked && bool_decide (Chan.buf (out s) = [])) || Chan.has_room (out s)
     then warnings (forward i t parked resp s) = warnings s /\
          workers (forward i t parked resp s)
            = <[i := Selecting t]> (workers s) /\
          delivered (forward i t parked resp s)
            ++ Chan.buf (out (forward i t parked resp s))
          ≡ₚ (delivered s ++ Chan.buf (out s)) ++ [resp]
     else warnings (forward i t parked resp s) = S (warnings s) /\
          workers (forward i t parked resp s)
            = <[i := Sending t resp]> (workers s) /\
          out (forward i t parked resp s) = out s /\
          delivered (forward i t parked resp s) = delivered s).
Proof.
  intros Hrun.
  assert (Hacc : accounted s ≡ₚ Chan.buf o ++ produced s).
  { destruct (run_accounted _ _ _ Hrun) as (new & Hp & Ha).
    rewrite Ha, Hp. unfold accounted. simpl.
    assert (Hfl : forall n, in_flight (replicate n Spawned) = []).
    { induction n as [|n IHn]; [reflexivity | exact IHn]. }
    rewrite Hfl, app_nil_r. reflexivity. }
  split; [exact Hacc|]. split.
  - destruct (run_drain s) as (s' & Hd & Hdel & Hb & Hf & Hp).
    exists s'. rewrite Hdel. done.
  - intros i t parked resp. apply forward_spec.
Qed.

Lemma responses_never_dropped_witness :
  exists s s',
    run [LConstruct 0 None; LConstruct 1 None; LFeed; LFeed;
         LRecv 0 (mkResponse None 5 []) false;
         LRecv 1 (mkResponse (Some "refused") 7 []) false]
        (snd (Serve {| Endpoint := "a"; Concurrency := 2; Timeout := 0;
                       In := Chan.mk 4 []; Stats := zeroStats |}
                    false (Chan.mk 1 [])
                    [mkRequest (Some 0%nat) 1 [] 0;
                     mkRequest (Some 0%nat) 2 [] 0])) = Some s /\
    warnings s = 1%nat /\
    accounted s ≡ₚ [mkResponse None 5 []; mkResponse (Some "refused") 7 []] /\
    run (drain s) s = Some s' /\
    delivered s' ≡ₚ [mkResponse None 5 []; mkResponse (Some "refused") 7 []].
Proof.
  eassert (Hrun :
    run [LConstruct 0 None; LConstruct 1 None; LFeed; LFeed;
         LRecv 0 (mkResponse None 5 []) false;
         LRecv 1 (mkResponse (Some "refused") 7 []) false]
        (snd (Serve {| Endpoint := "a"; Concurrency := 2; Timeout := 0;
                       In := Chan.mk 4 []; Stats := zeroStats |}
                    false (Chan.mk 1 [])
                    [mkRequest (Some 0%nat) 1 [] 0;
                     mkRequest (Some 0%nat) 2 [] 0])) = Some _).
  { vm_compute. reflexivity. }
  destruct (responses_never_dropped _ _ _ _ _ _ Hrun)
    as (Hacc & (s' & Hdrain & Hdel & _) & _).
  eexists _, s'. split; [exact Hrun|]. split; [reflexivity|].
  split; [exact Hacc|]. split; [exact Hdrain | exact Hdel].
Defined.

(** ** Shutdown by sentinels *)

Lemma handle_is_Some i t req resp parked s :
  is_Some (handle i t req resp parked s).
Proof.
  unfold handle. destruct (is_sentinel req); [eauto|].
  destruct (Count_never_panics (Err resp) (Elapsed resp) (stats s)) as [st ->].
  eauto.
Qed.

(** The bookkeeping of the three counts over [workers] when one goroutine
    moves. *)
Ltac count_workers :=
  try match goal with
      | Hl : workers ?s0 !! ?i = Some ?old
        |- context [<[?i := ?new]> (workers ?s0)] =>
          pose proof (sum_list_with_insert
                        (fun w => if has_exited w then 0 else 1)%nat
                        (workers s0) i old new Hl) as Hrunning;
          pose proof (sum_list_with_insert
                        (fun w => if exited_by BySentinel w then 1 else 0)%nat
                        (workers s0) i old new Hl) as Hexits;
          pose proof (sum_list_with_insert weight
                        (workers s0) i old new Hl) as Hweight;
          simpl in Hrunning, Hexits, Hweight
      end.

Lemma step_shutdown l s s' :
  normal l = true -> cancelled s = false -> step l s = Some s' ->
  cancelled s' = false /\
  (Forall stopped_by_sentinel (workers s) ->
   Forall stopped_by_sentinel (workers s')) /\
  length (workers s') = length (workers s) /\
  (running (workers s') + count_sentinels (Chan.buf (queue s) ++ feed s)
   = running (workers s) + count_sentinels (Chan.buf (queue s') ++ feed s'))%nat /\
  (count_exits BySentinel (workers s') + running (workers s')
   = count_exits BySentinel (workers s) + running (workers s))%nat /\
  (work_left s' < work_left s)%nat.
Proof.
  intros Hn Hc H.
  destruct l; try discriminate Hn; step_inv H; try discriminate;
    unfold running, count_exits, count_sentinels, work_left;
    simpl; count_workers; chan_inv; simpl;
    repeat match goal with
           | Hb : Chan.buf _ = _ |- _ => rewrite Hb
           | Hf : feed _ = _ |- _ => rewrite Hf
           end;
    simpl;
    rewrite ?length_insert, ?length_app, ?sum_list_with_app; simpl;
    repeat match goal with
           | Hs : is_sentinel _ = _ |- _ => rewrite Hs
           end.
  all: split; [assumption|].
  all: split; [try (intros Hall; apply Forall_insert; simpl; eauto); try done|].
  all: split; [reflexivity|].
  all: lia.
Qed.

Lemma running_zero ws :
  running ws = 0%nat -> Forall stopped_by_sentinel ws ->
  ws = replicate (length ws) (Exited BySentinel None).
Proof.
  unfold running. induction ws as [|w ws IH]; intros Hz Hall; [reflexivity|].
  apply Forall_cons in Hall as [Hw Hall].
  destruct w as [| | |how e]; simpl in Hz; try discriminate.
  destruct Hw as [-> ->]. simpl. f_equal. by apply IH.
Qed.

Lemma running_pos ws :
  running ws <> 0%nat -> exists i w, ws !! i = Some w /\ has_exited w = false.
Proof.
  unfold running. induction ws as [|w ws IH]; intros Hz; [done|].
  destruct (has_exited w) eqn:E.
  - destruct IH as (i & w' & Hi & Hw'); [by simpl in Hz; rewrite E in Hz|].
    by exists (S i), w'.
  - by exists 0%nat, w.
Qed.

(** While a goroutine is left, the pool can move, provided the sentinels
    that are still to come are as many as the goroutines that are left. *)
Lemma shutdown_progress s :
  Forall stopped_by_sentinel (workers s) ->
  running (workers s) = count_sentinels (Chan.buf (queue s) ++ feed s) ->
  workers s = replicate (length (workers s)) (Exited BySentinel None) \/
  exists l, normal l = true /\ is_Some (step l s).
Proof.
  intros Hall Hcount.
  destruct (decide (running (workers s) = 0%nat)) as [Hz|Hnz].
  { left. by apply running_zero. }
  right. destruct (running_pos _ Hnz) as (i & w & Hi & Hw).
  destruct w as [|t|t resp|how e]; [| | |discriminate].
  - exists (LConstruct i None). simpl. rewrite Hi. eauto.
  - destruct (Chan.buf (queue s)) as [|req rest] eqn:Eq.
    + destruct (feed s) as [|req rest] eqn:Ef.
      { exfalso. apply Hnz. rewrite Hcount. reflexivity. }
      exists (LRecvFeed i any_response true). simpl. rewrite Hi, Eq, Ef.
      split; [reflexivity | apply handle_is_Some].
    + exists (LRecv i any_response true). simpl. unfold Chan.recv.
      rewrite Hi, Eq. split; [reflexivity | apply handle_is_Some].
  - destruct (Chan.buf (out s)) as [|r rest] eqn:Eo.
    + exists (LUnblock i true). simpl. unfold out_send.
      rewrite Hi, Eo. simpl. eauto.
    + exists LConsume. simpl. unfold Chan.recv. rewrite Eo. eauto.
Qed.

Lemma run_shutdown ls : forall s s',
  Forall (fun l => normal l = true) ls ->
  cancelled s = false ->
  Forall stopped_by_sentinel (workers s) ->
  run ls s = Some s' ->
  cancelled s' = false /\
  Forall stopped_by_sentinel (workers s') /\
  length (workers s') = length (workers s) /\
  (running (workers s') + count_sentinels (Chan.buf (queue s) ++ feed s)
   = running (workers s) + count_sentinels (Chan.buf (queue s') ++ feed s'))%nat /\
  (count_exits BySentinel (workers s') + running (workers s')
   = count_exits BySentinel (workers s) + running (workers s))%nat /\
  (length ls + work_left s' <= work_left s)%nat.
Proof.
  induction ls as [|l rest IH]; intros s s' Hn Hc Hall H; simpl in H.
  - simplify_eq. repeat split; done.
  - apply Forall_cons in Hn as [Hl Hn].
    destruct (step l s) as [s1|] eqn:E; [|discriminate].
    destruct (step_shutdown _ _ _ Hl Hc E)
      as (Hc1 & Hall1 & Hlen1 & Hr1 & He1 & Hw1).
    destruct (IH _ _ Hn Hc1 (Hall1 Hall) H)
      as (Hc2 & Hall2 & Hlen2 & Hr2 & He2 & Hw2).
    split; [exact Hc2|]. split; [exact Hall2|].
    split; [congruence|]. split; [lia|]. split; [lia|]. simpl. lia.
Qed.

(** What [Finalize] sends to one client. *)
Lemma sends_to_replicate n i k (r : Request) :
  sends_to n (replicate k (i, r)) = if decide (i = n) then replicate k r else [].
Proof.
  unfold sends_to. induction k as [|k IH]; simpl.
  - by destruct (decide (i = n)).
  - rewrite filter_cons. simpl.
    destruct (decide (i = n)) as [Heq|Hne]; simpl in *.
    + f_equal. exact IH.
    + exact IH.
Qed.

Lemma sends_to_app n l1 l2 :
  sends_to n (l1 ++ l2) = sends_to n l1 ++ sends_to n l2.
Proof. unfold sends_to. by rewrite filter_app, fmap_app. Qed.

Lemma sends_to_Finalize_below (cs : Clients) : forall i n,
  (n < i)%nat -> sends_to n (Finalize_from i cs) = [].
Proof.
  induction cs as [|c cs IH]; intros i n Hlt; simpl; [reflexivity|].
  rewrite sends_to_app, sends_to_replicate, IH by lia.
  destruct (decide (i = n)); [lia | reflexivity].
Qed.

Lemma sends_to_Finalize_from (cs : Clients) : forall i n c,
  cs !! n = Some c ->
  sends_to (i + n) (Finalize_from i cs)
  = replicate (loop_count (Concurrency c)) sentinel.
Proof.
  induction cs as [|c0 cs IH]; intros i [|n] c H; simplify_eq/=.
  - rewrite sends_to_app, sends_to_replicate, sends_to_Finalize_below by lia.
    rewrite Nat.add_0_r. destruct (decide (i = i)); [|done].
    by rewrite app_nil_r.
  - rewrite sends_to_app, sends_to_replicate.
    destruct (decide (i = (i + S n)%nat)); [lia|]. simpl.
    replace (i + S n)%nat with (S i + n)%nat by lia. by apply IH.
Qed.

Lemma count_sentinels_replicate k :
  count_sentinels (replicate k sentinel) = k.
Proof.
  unfold count_sentinels. induction k as [|k IH]; simpl; [reflexivity|].
  by rewrite IH.
Qed.

Lemma count_sentinels_none rs :
  Forall (fun r => is_sentinel r = false) rs -> count_sentinels rs = 0%nat.
Proof.
  unfold count_sentinels. induction 1 as [|r rs Hr _ IH]; simpl; [reflexivity|].
  by rewrite Hr, IH.
Qed.

Lemma workers_replicate_Spawned k :
  running (replicate k Spawned) = k /\
  count_exits BySentinel (replicate k Spawned) = 0%nat /\
  sum_list_with weight (replicate k Spawned) = k /\
  Forall stopped_by_sentinel (replicate k Spawned).
Proof.
  unfold running, count_exits.
  induction k as [|k (IH1 & IH2 & IH3 & IH4)]; simpl.
  - repeat split. constructor.
  - rewrite IH1, IH2, IH3. repeat split. by constructor.
Qed.

Lemma In_coerce_Concurrency c : In (coerce_Concurrency c) = In c.
Proof. unfold coerce_Concurrency. by destruct (decide (Concurrency c < 1)). Qed.

(** C5, as amended.  [Finalize], called once the pools are being served (so
    that it reads the concurrency that [Serve] has coerced in the clients
    they share), sends to each client as many sentinels, of identifier [-1],
    as its pool has goroutines.  Then, as long as nobody cancels, every
    transport is built and the reader of [out] keeps receiving: each
    goroutine that has returned has done so on a sentinel, the goroutines
    that are left are as many as the sentinels that are still to be
    received, the pool cannot take more than a bounded number of steps, and
    whenever it stops every goroutine has returned on a sentinel: none is
    left blocked. *)
Theorem Finalize_stops_every_worker (clients : Clients) (n : nat) (c : Client)
    (o : Chan.t Response) (reals : list Request) (ls : list label) (s : state) :
  clients !! n = Some c ->
  Forall (fun r => is_sentinel r = false) (Chan.buf (In c) ++ reals) ->
  Forall (fun l => normal l = true) ls ->
  run ls (snd (Serve c false o
                 (reals ++ sends_to n (Finalize (coerce_Concurrency <$> clients)))))
    = Some s ->
  sends_to n (Finalize (coerce_Concurrency <$> clients))
    = replicate (Serve_workers c) sentinel /\
  ID sentinel = -1 /\
  length (workers s) = Serve_workers c /\
  (count_exits BySentinel (workers s) + running (workers s)
   = Serve_workers c)%nat /\
  running (workers s) = count_sentinels (Chan.buf (queue s) ++ feed s) /\
  (length ls <= 4 * (length reals + Serve_workers c)
                + 3 * length (Chan.buf (In c)) + length (Chan.buf o)
                + Serve_workers c)%nat /\
  (workers s = replicate (Serve_workers c) (Exited BySentinel None) \/
   exists l, normal l = true /\ is_Some (step l s)).
Proof.
  intros Hc Hreal Hnormal Hrun.
  assert (Hstops : sends_to n (Finalize (coerce_Concurrency <$> clients))
                   = replicate (Serve_workers c) sentinel).
  { unfold Finalize.
    apply (sends_to_Finalize_from _ 0%nat n (coerce_Concurrency c)).
    unfold Clients in *.
    rewrite (list_lookup_fmap coerce_Concurrency clients n).
    by rewrite Hc. }
  rewrite Hstops in Hrun.
  destruct (workers_replicate_Spawned (Serve_workers c))
    as (Hrun0 & Hex0 & Hw0 & Hall0).
  destruct (run_shutdown ls
              (snd (Serve c false o
                      (reals ++ replicate (Serve_workers c) sentinel)))
              s Hnormal eq_refl Hall0 Hrun)
    as (_ & Hall & Hlen & Hcount & Hexits & Hsteps).
  unfold work_left in Hsteps. simpl in Hlen, Hcount, Hexits, Hsteps.
  fold (Serve_workers c) in Hlen, Hcount, Hexits, Hsteps.
  rewrite In_coerce_Concurrency in Hcount, Hsteps.
  rewrite Hrun0, Hex0 in Hexits. rewrite Hrun0 in Hcount.
  rewrite Hw0, length_app, length_replicate in Hsteps.
  rewrite length_replicate in Hlen.
  assert (Hinit : count_sentinels
                    (Chan.buf (In c) ++ reals ++ replicate (Serve_workers c) sentinel)
                  = Serve_workers c).
  { rewrite app_assoc. unfold count_sentinels. rewrite sum_list_with_app.
    fold (count_sentinels (Chan.buf (In c) ++ reals)).
    fold (count_sentinels (replicate (Serve_workers c) sentinel)).
    by rewrite count_sentinels_none, count_sentinels_replicate. }
  rewrite Hinit in Hcount.
  assert (Hleft : running (workers s)
                  = count_sentinels (Chan.buf (queue s) ++ feed s)) by lia.
  split; [exact Hstops|]. split; [reflexivity|]. split; [exact Hlen|].
  split; [lia|]. split; [exact Hleft|]. split; [lia|].
  rewrite <- Hlen. by apply shutdown_progress.
Qed.

Lemma Finalize_stops_every_worker_witness :
  exists s,
    run [LConstruct 0 None; LRecvFeed 0 any_response false; LConsume;
         LRecvFeed 0 any_response false]
        (snd (Serve {| Endpoint := "a"; Concurrency := 0; Timeout := 0;
                       In := Chan.mk 0 []; Stats := zeroStats |}
                    false (Chan.mk 1 [])
                    [mkRequest (Some 0%nat) 1 [] 0; sentinel])) = Some s /\
    workers s = [Exited BySentinel None] /\
    wait s = Some None.
Proof.
  eassert (Hrun :
    run [LConstruct 0 None; LRecvFeed 0 any_response false; LConsume;
         LRecvFeed 0 any_response false]
        (snd (Serve {| Endpoint := "a"; Concurrency := 0; Timeout := 0;
                       In := Chan.mk 0 []; Stats := zeroStats |}
                    false (Chan.mk 1 [])
                    [mkRequest (Some 0%nat) 1 [] 0; sentinel])) = Some _).
  { vm_compute. reflexivity. }
  eexists. split; [exact Hrun|].
  destruct (Finalize_stops_every_worker
    [{| Endpoint := "a"; Concurrency := 0; Timeout := 0;
        In := Chan.mk 0 []; Stats := zeroStats |}] 0
    {| Endpoint := "a"; Concurrency := 0; Timeout := 0;
       In := Chan.mk 0 []; Stats := zeroStats |}
    (Chan.mk 1 []) [mkRequest (Some 0%nat) 1 [] 0]
    [LConstruct 0 None; LRecvFeed 0 any_response false; LConsume;
     LRecvFeed 0 any_response false] _
    eq_refl ltac:(repeat constructor) ltac:(repeat constructor) Hrun)
    as (_ & _ & _ & _ & _ & _ & Hend).
  split; [|reflexivity].
  destruct Hend as [Hdone | (l & _ & Hmove)]; [exact Hdone|].
  reflexivity.
Defined.

(** C5 as stated fails for a client built with a concurrency below one when
    [Finalize] is called before [Serve] has started on it: [Finalize] reads
    the concurrency as built, zero, and sends no sentinel; [Serve] then
    coerces it and starts one goroutine, which builds its transport and
    waits on the empty queue with nothing left that could move it. *)
Lemma Finalize_before_Serve :
  exists c s,
    NewClient "a" 0 = Returned (c, None) /\
    Finalize [c] = [] /\
    Serve_workers c = 1%nat /\
    run [LConstruct 0 None]
        (snd (Serve c false (Chan.mk 1 []) (sends_to 0 (Finalize [c]))))
      = Some s /\
    workers s = [Selecting (mkTransport "a" 0)] /\
    forall l, normal l = true -> step l s = None.
Proof.
  eexists _, _. split; [reflexivity|]. split; [reflexivity|].
  split; [reflexivity|]. split; [reflexivity|]. split; [reflexivity|].
  intros l Hl. destruct l as [| |i e|i|i r p|i r p|i p|]; try discriminate Hl.
  - reflexivity.
  - destruct e; [discriminate Hl|]. by destruct i as [|[|i]].
  - by destruct i as [|[|i]].
  - by destruct i as [|[|i]].
  - by destruct i as [|[|i]].
  - by destruct i as [|[|i]].
  - reflexivity.
Qed.

(* ================================================================= *)
(** * Further properties *)

(** ** The aggregator in closed form *)

Lemma wrap_add_l a b : GoInt.wrap (GoInt.wrap a + b) = GoInt.wrap (a + b).
Proof.
  unfold GoInt.wrap.
  replace ((a + 2 ^ 63) mod 2 ^ 64 - 2 ^ 63 + b + 2 ^ 63)
    with ((a + 2 ^ 63) mod 2 ^ 64 + b) by lia.
  rewrite Zplus_mod_idemp_l. do 2 f_equal. lia.
Qed.

Lemma add_wrap_l a b : GoInt.add (GoInt.wrap a) b = GoInt.wrap (a + b).
Proof. apply wrap_add_l. Qed.

Lemma add_swap a b c :
  GoInt.add (GoInt.add a b) c = GoInt.add (GoInt.add a c) b.
Proof.
  unfold GoInt.add. rewrite !wrap_add_l. f_equal. lia.
Qed.

Lemma Count_each_app calls1 calls2 : forall s,
  Count_each (calls1 ++ calls2) s
  = match Count_each calls1 s with
    | Returned s1 => Count_each calls2 s1
    | Panicked msg => Panicked msg
    end.
Proof.
  induction calls1 as [|[err elapsed] rest IH]; intros s; simpl; [reflexivity|].
  destruct (Count err elapsed s); [apply IH | reflexivity].
Qed.

Lemma count_message_snoc msg calls err elapsed :
  count_message msg (calls ++ [(err, elapsed)])
  = count_message msg calls + (if decide (err = Some msg) then 1 else 0).
Proof.
  unfold count_message.
  rewrite filter_app, length_app, filter_cons, filter_nil, Nat2Z.inj_add.
  f_equal. simpl. repeat case_decide; simpl in *; done.
Qed.

Lemma count_message_nonneg msg calls : 0 <= count_message msg calls.
Proof. unfold count_message. lia. Qed.

Lemma sum_elapsed_app calls1 calls2 :
  sum_elapsed (calls1 ++ calls2) = sum_elapsed calls1 + sum_elapsed calls2.
Proof.
  induction calls1 as [|c rest IH]; simpl; [reflexivity|].
  rewrite IH. lia.
Qed.

(** The run from the zero value, by induction on its last call. *)
Lemma Count_each_from_zero (calls : list (error * Duration)) :
  exists s, Count_each calls zeroStats = Returned s /\
    NumTotal s = GoInt.wrap (Z.of_nat (length calls)) /\
    NumErrors s
      = GoInt.wrap (Z.of_nat (length (filter (fun c => failed c) calls))) /\
    TimeTotal s = GoInt.wrap (sum_elapsed calls) /\
    TimeErrors s = GoInt.wrap (sum_elapsed (filter (fun c => failed c) calls)) /\
    (GoMap.is_nil (Errors s)
     = bool_decide (filter (fun c => failed c) calls = [])) /\
    forall msg,
      GoMap.entries (Errors s) !! msg
      = if decide (count_message msg calls = 0) then None
        else Some (GoInt.wrap (count_message msg calls)).
Proof.
  induction calls as [|[err elapsed] calls IH] using rev_ind.
  - exists zeroStats. repeat split.
  - destruct IH as (s & Hrun & HN & HE & HT & HTe & Hnil & Hmap).
    rewrite Count_each_app, Hrun. simpl.
    rewrite filter_app, filter_cons, length_app, sum_elapsed_app.
    rewrite Nat2Z.inj_add.
    unfold Count. destruct err as [m|]; simpl.
    + assert (Hshape :
        (if GoMap.is_nil (Errors s) then GoMap.make else Errors s)
        = Some (GoMap.entries (Errors s))).
      { by destruct (Errors s). }
      rewrite Hshape. simpl. eexists. split; [reflexivity|]. simpl.
      rewrite HN, HE, HT, HTe, !add_wrap_l.
      rewrite length_app, sum_elapsed_app, Nat2Z.inj_add. simpl.
      split; [reflexivity|]. split; [reflexivity|].
      split; [f_equal; lia|]. split; [f_equal; lia|].
      split.
      { symmetry. apply bool_decide_eq_false_2.
        intros Habs. by apply app_eq_nil in Habs as [_ ?]. }
      intros msg. rewrite count_message_snoc.
      pose proof (count_message_nonneg msg calls) as Hpos.
      destruct (decide (m = msg)) as [->|Hne].
      * rewrite lookup_insert_eq.
        rewrite (decide_True (P := Some msg = Some msg)) by done.
        rewrite (decide_False (P := count_message msg calls + 1 = 0)) by lia.
        f_equal. unfold GoMap.get. rewrite Hmap.
        destruct (decide (count_message msg calls = 0)) as [Hz|Hz]; simpl.
        -- rewrite Hz. reflexivity.
        -- apply add_wrap_l.
      * rewrite lookup_insert_ne by done.
        rewrite (decide_False (P := Some m = Some msg)) by congruence.
        rewrite Z.add_0_r. apply Hmap.
    + eexists. split; [reflexivity|]. simpl.
      rewrite HN, HT, !add_wrap_l, app_nil_r.
      split; [reflexivity|]. split; [exact HE|].
      split; [f_equal; simpl; lia|]. split; [exact HTe|].
      split; [exact Hnil|].
      intros msg. rewrite count_message_snoc.
      rewrite (decide_False (P := None = Some msg)) by done.
      rewrite Z.add_0_r. apply Hmap.
Qed.

Lemma wrap_zero : GoInt.wrap 0 = 0.
Proof. reflexivity. Qed.

(** X1.  The state of an aggregator after any run of [Count] from the zero
    value, whatever the durations and however long the run: every counter is
    the corresponding sum, wrapped to 64 bits; [Errors] is still nil exactly
    when no call failed; its keys are exactly the messages that occurred, and
    the entry of a message is the (wrapped) number of calls that failed with
    it. *)
Theorem Count_each_closed_form (calls : list (error * Duration)) :
  exists s, Count_each calls zeroStats = Returned s /\
    NumTotal s = GoInt.wrap (Z.of_nat (length calls)) /\
    NumErrors s
      = GoInt.wrap (Z.of_nat (length (filter (fun c => failed c) calls))) /\
    TimeTotal s = GoInt.wrap (sum_elapsed calls) /\
    TimeErrors s = GoInt.wrap (sum_elapsed (filter (fun c => failed c) calls)) /\
    (GoMap.is_nil (Errors s) = true
     <-> Forall (fun c => fst c = None) calls) /\
    forall msg,
      GoMap.get (Errors s) msg = GoInt.wrap (count_message msg calls) /\
      (msg ∈ dom (GoMap.entries (Errors s)) <-> 0 < count_message msg calls).
Proof.
  destruct (Count_each_from_zero calls)
    as (s & Hrun & HN & HE & HT & HTe & Hnil & Hmap).
  exists s. repeat (split; [assumption|]). split.
  - rewrite Hnil, bool_decide_eq_true. clear.
    induction calls as [|[[m|] d] rest IH]; simpl.
    + split; [constructor | reflexivity].
    + rewrite filter_cons. simpl. split; [discriminate|].
      intros Hall. apply Forall_cons in Hall as [Habs _]. discriminate.
    + rewrite filter_cons. simpl. rewrite IH. split.
      * by constructor.
      * intros Hall. by apply Forall_cons in Hall as [_ ?].
  - intros msg. pose proof (count_message_nonneg msg calls) as Hpos.
    unfold GoMap.get. rewrite elem_of_dom, Hmap.
    destruct (decide (count_message msg calls = 0)) as [Hz|Hz]; simpl.
    + rewrite Hz, wrap_zero. split; [reflexivity|].
      split; [intros [x Hx]; discriminate | lia].
    + split; [reflexivity|]. split; [lia | eauto].
Qed.

(** ** The order of the calls does not matter *)

Lemma Count_entry_swap (g : gmap string Z) m1 m2 :
  <[m2 := GoInt.add (GoMap.get (Some (<[m1 := GoInt.add (GoMap.get (Some g) m1) 1]> g)) m2) 1]>
    (<[m1 := GoInt.add (GoMap.get (Some g) m1) 1]> g)
  = <[m1 := GoInt.add (GoMap.get (Some (<[m2 := GoInt.add (GoMap.get (Some g) m2) 1]> g)) m1) 1]>
      (<[m2 := GoInt.add (GoMap.get (Some g) m2) 1]> g).
Proof.
  unfold GoMap.get, GoMap.entries. simpl.
  destruct (decide (m1 = m2)) as [->|Hne].
  - reflexivity.
  - rewrite !lookup_insert_ne by done. by apply insert_insert_ne.
Qed.

Lemma Count_swap e1 d1 e2 d2 s :
  Count_each [(e1, d1); (e2, d2)] s = Count_each [(e2, d2); (e1, d1)] s.
Proof.
  destruct s as [n ne te tt errs]. unfold Count_each, Count.
  destruct e1 as [m1|], e2 as [m2|], errs as [g|]; simpl;
    rewrite ?(add_swap tt d1 d2), ?(add_swap te d1 d2);
    try reflexivity.
  - by rewrite Count_entry_swap.
  - do 3 f_equal. apply (Count_entry_swap ∅).
Qed.

(** X2.  The state that a run of [Count] leaves does not depend on the
    order of its calls: whichever worker gets the lock first, the
    aggregator ends up the same, overflow included. *)
Theorem Count_each_Permutation (calls calls' : list (error * Duration)) :
  calls ≡ₚ calls' -> forall s, Count_each calls s = Count_each calls' s.
Proof.
  induction 1 as [|[err elapsed] l l' _ IH|[e1 d1] [e2 d2] l|l l' l'' _ IH1 _ IH2];
    intros s.
  - reflexivity.
  - simpl. destruct (Count err elapsed s); [apply IH | reflexivity].
  - change ((e2, d2) :: (e1, d1) :: l) with ([(e2, d2); (e1, d1)] ++ l).
    change ((e1, d1) :: (e2, d2) :: l) with ([(e1, d1); (e2, d2)] ++ l).
    by rewrite !Count_each_app, Count_swap.
  - by rewrite IH1.
Qed.

Lemma Count_each_Permutation_witness :
  Count_each [(Some "refused", 7); (None, 5); (Some "timeout", 2)] zeroStats
  = Count_each [(Some "timeout", 2); (Some "refused", 7); (None, 5)] zeroStats.
Proof.
  apply (Count_each_Permutation
           [(Some "refused", 7); (None, 5); (Some "timeout", 2)]
           [(Some "timeout", 2); (Some "refused", 7); (None, 5)]).
  symmetry.
  apply (Permutation_cons_append [(Some "refused", 7); (None, 5)]
                                 (Some "timeout", 2)).
Defined.

(** ** What [Render] prints after a run of [Count] *)

Lemma Render_nonzero (W : Writer) (order : range_order)
    (stats : clientStats) (w : w_state W) :
  NumTotal stats <> 0 ->
  exists head,
    Render W order stats w
    = (fold_left (fprintf_ W)
         (head ++ (error_line <$> range_of order (GoMap.entries (Errors stats))))
         w, Returned None) /\
    Forall (fun c => forall e, c <> error_line e) head.
Proof.
  intros Hn. unfold Render.
  destruct (decide (NumTotal stats = 0)) as [H0|_]; [contradiction|].
  rewrite quo_nonzero by exact Hn.
  destruct (decide (0 < NumErrors stats /\ NumErrors stats <> NumTotal stats))
    as [[Hpos _]|_].
  - rewrite quo_nonzero by lia.
    eexists [_; _; _; _; _]. simpl. rewrite fold_left_fprintf_lines.
    split; [reflexivity|]. repeat constructor; intros e; discriminate.
  - eexists [_; _; _; _]. simpl. rewrite fold_left_fprintf_lines.
    split; [reflexivity|]. repeat constructor; intros e; discriminate.
Qed.

Lemma fold_left_logWriter (calls : list fprintf_call) : forall w,
  fold_left (fprintf_ logWriter) calls w = w ++ calls.
Proof.
  induction calls as [|c rest IH]; intros w; simpl.
  - by rewrite app_nil_r.
  - rewrite IH. unfold fprintf_. simpl. by rewrite <- app_assoc.
Qed.

Lemma count_message_le msg calls :
  count_message msg calls <= Z.of_nat (length calls).
Proof.
  unfold count_message. apply inj_le, length_filter.
Qed.

(** X3.  After a run of at least one call (and fewer than [2^63]), [Render]
    returns nil, and what it prints ends with the lines for the errors, which
    are exactly one per message that occurred, with the number of calls that
    failed with it: no message has two lines, no line is printed for
    anything else, and nothing before these lines is such a line. *)
Theorem Render_after_Count_each (order : range_order)
    (calls : list (error * Duration)) :
  calls <> [] -> Z.of_nat (length calls) <= GoInt.max_int ->
  exists s head lines,
    Count_each calls zeroStats = Returned s /\
    Render logWriter order s []
    = (head ++ (error_line <$> lines), Returned None) /\
    Forall (fun c => forall e, c <> error_line e) head /\
    NoDup (fst <$> lines) /\
    (forall msg n,
       (msg, n) ∈ lines <-> n = count_message msg calls /\ 0 < n) /\
    (forall msg n,
       length (filter (fun c => c = error_line (msg, n))
                      (head ++ (error_line <$> lines)))
       = if decide (n = count_message msg calls /\ 0 < n) then 1%nat
         else 0%nat).
Proof.
  intros Hne Hmax.
  destruct (Count_each_from_zero calls)
    as (s & Hrun & HN & _ & _ & _ & _ & Hmap).
  assert (Hrange : forall z, 0 <= z <= Z.of_nat (length calls) ->
                             GoInt.wrap z = z).
  { intros z Hz. apply wrap_id.
    unfold GoInt.in_range, GoInt.min_int, GoInt.max_int in *. lia. }
  rewrite Hrange in HN by lia.
  assert (Hpos : NumTotal s <> 0).
  { rewrite HN. destruct calls; [done | simpl; lia]. }
  destruct (Render_nonzero logWriter order s [] Hpos) as (head & Hrender & Hhead).
  rewrite fold_left_logWriter in Hrender. simpl in Hrender.
  set (lines := range_of order (GoMap.entries (Errors s))) in *.
  assert (Hnodup : NoDup (fst <$> lines)).
  { unfold lines. rewrite (range_of_perm order). apply NoDup_fst_map_to_list. }
  assert (Hlines : forall msg n,
    (msg, n) ∈ lines <-> n = count_message msg calls /\ 0 < n).
  { intros msg n.
    pose proof (count_message_nonneg msg calls) as H0.
    pose proof (count_message_le msg calls) as Hle.
    unfold lines. rewrite (range_of_perm order), elem_of_map_to_list, Hmap.
    destruct (decide (count_message msg calls = 0)) as [Hz|Hnz].
    - split; [discriminate|]. intros [-> Hn]. lia.
    - rewrite Hrange by lia. split.
      + intros [= <-]. lia.
      + by intros [-> _]. }
  exists s, head, lines.
  split; [exact Hrun|]. split; [exact Hrender|]. split; [exact Hhead|].
  split; [exact Hnodup|]. split; [exact Hlines|].
  intros msg n. rewrite filter_app, length_app.
  assert (Hh : filter (fun c => c = error_line (msg, n)) head = []).
  { clear -Hhead. induction Hhead as [|c head Hc _ IH]; [reflexivity|].
    rewrite filter_cons, decide_False by apply Hc. exact IH. }
  rewrite Hh. simpl.
  assert (Hcount : forall l : list (string * Z), NoDup (fst <$> l) ->
    length (filter (fun c => c = error_line (msg, n)) (error_line <$> l))
    = if decide ((msg, n) ∈ l) then 1%nat else 0%nat).
  { clear. induction l as [|[m k] l IH]; intros Hnd.
    - destruct (decide ((msg, n) ∈ [])) as [Hin|_]; [|reflexivity].
      by apply not_elem_of_nil in Hin.
    - rewrite fmap_cons in Hnd. apply NoDup_cons in Hnd as [Hnot Hnd].
      specialize (IH Hnd). rewrite fmap_cons, filter_cons.
      destruct (decide (error_line (m, k) = error_line (msg, n)))
        as [Heq|Hneq].
      + injection Heq as -> ->. cbn [length]. rewrite IH.
        destruct (decide ((msg, n) ∈ l)) as [Hin|_].
        * exfalso. apply Hnot. apply list_elem_of_fmap. by exists (msg, n).
        * destruct (decide ((msg, n) ∈ (msg, n) :: l)) as [_|Hout];
            [reflexivity|].
          exfalso. apply Hout, elem_of_cons. by left.
      + rewrite IH.
        destruct (decide ((msg, n) ∈ l)) as [Hin|Hnin];
          destruct (decide ((msg, n) ∈ (m, k) :: l)) as [Hin'|Hnin'];
          try reflexivity.
        * exfalso. apply Hnin', elem_of_cons. by right.
        * exfalso. apply elem_of_cons in Hin' as [[= <- <-]|Hin']; done. }
  rewrite (Hcount lines Hnodup).
  destruct (decide ((msg, n) ∈ lines)) as [Hin|Hnin];
    destruct (decide (n = count_message msg calls /\ 0 < n)) as [Hc|Hnc];
    try reflexivity.
  - exfalso. by apply Hnc, Hlines.
  - exfalso. by apply Hnin, Hlines.
Qed.

Lemma Render_after_Count_each_witness :
  exists s out,
    Count_each [(Some "refused", 7); (None, 5); (Some "refused", 2)] zeroStats
      = Returned s /\
    Render logWriter anyOrder s [] = (out, Returned None) /\
    length (filter (fun c => c = error_line ("refused", 2)) out) = 1%nat.
Proof.
  destruct (Render_after_Count_each anyOrder
              [(Some "refused", 7); (None, 5); (Some "refused", 2)])
    as (s & head & lines & Hrun & Hrender & _ & _ & _ & Hcount).
  - discriminate.
  - vm_compute. discriminate.
  - exists s, (head ++ (error_line <$> lines)).
    split; [exact Hrun|]. split; [exact Hrender|].
    rewrite Hcount. reflexivity.
Defined.

(** ** [NewClients] and [Handle] *)

Lemma NewClients_loop_spec `{Runtime} endpoints concurrency timeout :
  0 <= GoInt.mul 2 concurrency <= max_chan ->
  forall clients,
    NewClients_loop endpoints concurrency timeout clients
    = Returned (Some (clients ++ (fresh_client concurrency timeout <$> endpoints)),
                None).
Proof.
  intros Hpos. induction endpoints as [|e rest IH]; intros clients; simpl.
  - by rewrite app_nil_r.
  - unfold NewClient, Chan.make. rewrite decide_False by lia.
    rewrite IH, <- app_assoc. reflexivity.
Qed.

(** X4.  [NewClients] never returns an error.  With no endpoint it returns
    no client, whatever the concurrency; otherwise it panics in [make] when
    twice the concurrency, as an [int], is negative or more than the runtime
    accepts as the size of a channel, and else returns one client per
    endpoint, in order, each with the concurrency and the timeout that were
    given, zeroed statistics and an empty queue of capacity twice the
    concurrency. *)
Theorem NewClients_spec `{Runtime} (endpoints : list string) (concurrency : Z)
    (timeout : Duration) :
  NewClients endpoints concurrency timeout
  = if decide (endpoints = []) then Returned (Some [], None)
    else if decide (GoInt.mul 2 concurrency < 0
                    \/ max_chan < GoInt.mul 2 concurrency)
         then Panicked "makechan: size out of range"
         else Returned (Some (fresh_client concurrency timeout <$> endpoints),
                        None).
Proof.
  unfold NewClients.
  destruct (decide (endpoints = [])) as [->|Hne]; [reflexivity|].
  destruct (decide (GoInt.mul 2 concurrency < 0
                    \/ max_chan < GoInt.mul 2 concurrency)) as [Hout|Hin].
  - destruct endpoints as [|e rest]; [done|]. simpl.
    unfold NewClient, Chan.make. by rewrite decide_True by exact Hout.
  - by rewrite NewClients_loop_spec by lia.
Qed.

Lemma set_In_same c : set_In (Chan.mk (Chan.cap (In c)) (Chan.buf (In c))) c = c.
Proof. by destruct c as [e k t [cap buf] st]. Qed.

(** Requests go in while there is room, in the order of the calls. *)
Lemma Handle_each_room reqs : forall c,
  (length (Chan.buf (In c)) <= Chan.cap (In c))%nat ->
  Handle_each reqs c
  = if decide (length (Chan.buf (In c)) + length reqs <= Chan.cap (In c))%nat
    then Some (set_In (Chan.mk (Chan.cap (In c)) (Chan.buf (In c) ++ reqs)) c)
    else None.
Proof.
  induction reqs as [|req rest IH]; intros c Hwf.
  - cbn [Handle_each length]. rewrite decide_True by lia.
    by rewrite app_nil_r, set_In_same.
  - cbn [Handle_each length]. unfold Handle, Chan.send, Chan.has_room.
    destruct (decide (length (Chan.buf (In c)) < Chan.cap (In c))%nat)
      as [Hroom|Hfull].
    + rewrite bool_decide_eq_true_2 by exact Hroom.
      rewrite IH by (cbn; rewrite length_app; cbn; lia).
      cbn [set_In In Chan.cap Chan.buf]. rewrite length_app. cbn [length].
      destruct (decide (length (Chan.buf (In c)) + S (length rest)
                        <= Chan.cap (In c))%nat).
      * rewrite decide_True by lia. by rewrite <- app_assoc.
      * rewrite decide_False by lia. reflexivity.
    + rewrite bool_decide_eq_false_2 by exact Hfull.
      rewrite decide_False by lia. reflexivity.
Qed.

(** X5.  A client that [NewClient] has just built, with a concurrency that
    is not negative and whose double the runtime accepts as the size of a
    channel, takes exactly twice its concurrency in requests before [Handle]
    has to wait for a worker, and keeps them in the order in which they were
    handed; built with a concurrency of zero, it makes even the first
    [Handle] wait. *)
Theorem NewClient_Handle_each `{Runtime} (endpoint : string) (concurrency : Z)
    (reqs : list Request) :
  0 <= concurrency -> 2 * concurrency <= GoInt.max_int ->
  2 * concurrency <= max_chan ->
  exists c, NewClient endpoint concurrency = Returned (c, None) /\
    Handle_each reqs c
    = if decide (Z.of_nat (length reqs) <= 2 * concurrency)
      then Some (set_In (Chan.mk (Z.to_nat (2 * concurrency)) reqs) c)
      else None.
Proof.
  intros H0 Hmax Hlim. unfold NewClient, Chan.make, GoInt.mul.
  rewrite wrap_id
    by (unfold GoInt.in_range, GoInt.min_int, GoInt.max_int in *; lia).
  rewrite decide_False by lia.
  eexists. split; [reflexivity|].
  rewrite Handle_each_room by (cbn; lia). cbn [In Chan.cap Chan.buf length].
  destruct (decide (Z.of_nat (length reqs) <= 2 * concurrency)) as [Hle|Hgt].
  - rewrite decide_True by lia. reflexivity.
  - rewrite decide_False by lia. reflexivity.
Qed.

Lemma NewClient_Handle_each_witness :
  exists c, NewClient "a" 1 = Returned (c, None) /\
    Handle_each [sentinel; sentinel] c
      = Some (set_In (Chan.mk 2 [sentinel; sentinel]) c) /\
    Handle_each [sentinel; sentinel; sentinel] c = None.
Proof.
  destruct (NewClient_Handle_each "a" 1 [sentinel; sentinel])
    as (c & Hc & H2);
    [lia | vm_compute; discriminate | vm_compute; discriminate |].
  exists c. split; [exact Hc|]. split; [exact H2|].
  vm_compute in Hc. injection Hc as <-. reflexivity.
Defined.

(** ** A [Send] that is cancelled, and what [Finalize] sends *)

Lemma Send_loop_cancelled now resolve ctx_err id line k :
  forall (c : Clients) (i : nat),
    (k < length c)%nat ->
    (forall j, (j < k)%nat -> resolve (i + j)%nat = CaseSend) ->
    resolve (i + k)%nat = CaseDone ->
    Send_loop now resolve ctx_err id line i c
    = (take k (imap (fun j _ => ((i + j)%nat,
                                 {| client := Some (i + j)%nat; ID := id;
                                    Line := line;
                                    Timestamp := now (i + j)%nat |})) c),
       Some ctx_err).
Proof.
  induction k as [|k IH]; intros [|cl rest] i Hlen Hsend Hdone;
    simpl in Hlen; try lia.
  - simpl. rewrite Nat.add_0_r in Hdone. by rewrite Hdone.
  - simpl. pose proof (Hsend 0%nat ltac:(lia)) as H0.
    rewrite Nat.add_0_r in H0. rewrite H0.
    rewrite (IH rest (S i)).
    + rewrite Nat.add_0_r. f_equal. f_equal. f_equal.
      apply imap_ext. intros j x _. simpl.
      replace (i + S j)%nat with (S (i + j)) by lia. reflexivity.
    + lia.
    + intros j Hj. replace (S i + j)%nat with (i + S j)%nat by lia.
      apply Hsend. lia.
    + replace (S i + k)%nat with (i + S k)%nat by lia. exact Hdone.
Qed.

(** X6.  A [Send] whose select at client [k] is the first to be resolved by
    cancellation returns [ctx.Err()] after sending to the [k] clients before
    it and to none after it; the identifier is used up all the same. *)
Theorem Send_cancelled now resolve (ctx_err : string) (id : requestID)
    (c : Clients) (line : list Byte.byte) (k : nat) :
  (k < length c)%nat ->
  (forall j, (j < k)%nat -> resolve j = CaseSend) ->
  resolve k = CaseDone ->
  Send now resolve ctx_err id c line
  = (GoInt.add id 1, take k (broadcast (GoInt.add id 1) line now c),
     Some ctx_err).
Proof.
  intros Hk Hsend Hdone. unfold Send.
  rewrite (Send_loop_cancelled now resolve ctx_err _ line k c 0%nat);
    [reflexivity | exact Hk | exact Hsend | exact Hdone].
Qed.

Lemma Send_cancelled_witness :
  Send (fun _ => 7) (fun i => if decide (i = 1%nat) then CaseDone else CaseSend)
       "context canceled" 4
       [fresh_client 1 0 "a"; fresh_client 1 0 "b"; fresh_client 1 0 "c"] []
  = (5, [(0%nat, mkRequest (Some 0%nat) 5 [] 7)], Some "context canceled").
Proof.
  apply (Send_cancelled (fun _ => 7)
           (fun i => if decide (i = 1%nat) then CaseDone else CaseSend)
           "context canceled" 4
           [fresh_client 1 0 "a"; fresh_client 1 0 "b"; fresh_client 1 0 "c"]
           [] 1).
  - simpl. lia.
  - intros j Hj. destruct j; [reflexivity | lia].
  - reflexivity.
Defined.

Lemma Finalize_from_all (c : Clients) : forall i,
  length (Finalize_from i c)
    = sum_list_with (fun cl => loop_count (Concurrency cl)) c /\
  Forall (fun s => snd s = sentinel /\ (i <= fst s < i + length c)%nat)
         (Finalize_from i c).
Proof.
  induction c as [|cl rest IH]; intros i; simpl.
  - split; [reflexivity | constructor].
  - destruct (IH (S i)) as [Hlen Hall].
    rewrite length_app, length_replicate. split; [f_equal; exact Hlen|].
    apply Forall_app. split.
    + apply Forall_replicate. simpl. split; [reflexivity | lia].
    + eapply Forall_impl; [exact Hall|]. simpl. intros s [? ?]. split; [done | lia].
Qed.

(** X7.  [Finalize] sends sentinels and nothing else, only to clients of
    the collection; a client receives as many as its [Concurrency] field
    holds at that moment (none if it is zero or negative), and the sends are
    as many as these numbers add up to. *)
Theorem Finalize_spec (c : Clients) (n : nat) (cl : Client) :
  c !! n = Some cl ->
  sends_to n (Finalize c) = replicate (Z.to_nat (Concurrency cl)) sentinel /\
  length (Finalize c)
    = sum_list_with (fun cl => Z.to_nat (Concurrency cl)) c /\
  Forall (fun s => snd s = sentinel /\ (fst s < length c)%nat) (Finalize c).
Proof.
  intros Hn. unfold Finalize.
  destruct (Finalize_from_all c 0%nat) as [Hlen Hall].
  split; [|split; [exact Hlen|]].
  - exact (sends_to_Finalize_from c 0%nat n cl Hn).
  - eapply Forall_impl; [exact Hall|]. simpl. intros s [? ?]. split; [done | lia].
Qed.

Lemma Finalize_spec_witness :
  sends_to 1 (Finalize [fresh_client 2 0 "a"; fresh_client 0 0 "b"]) = [] /\
  length (Finalize [fresh_client 2 0 "a"; fresh_client 0 0 "b"]) = 2%nat.
Proof.
  destruct (Finalize_spec [fresh_client 2 0 "a"; fresh_client 0 0 "b"] 1
                          (fresh_client 0 0 "b") eq_refl) as (H1 & H2 & _).
  split; [exact H1 | exact H2].
Defined.

(** ** The statistics of a pool *)

Lemma step_stats l s s' :
  step l s = Some s' ->
  exists new, produced s' = produced s ++ new /\
    Count_each (calls_of new) (stats s) = Returned (stats s') /\
    (warnings s' <= warnings s + length new)%nat.
Proof.
  intros H. destruct l; step_inv H; simpl.
  all: try (exists []; split; [by rewrite app_nil_r|]; simpl;
            split; [reflexivity | lia]).
  all: try (eexists [_]; split; [reflexivity|]; simpl;
            match goal with Hc : Count _ _ _ = Returned _ |- _ =>
              simpl in Hc; rewrite Hc end;
            split; [reflexivity | lia]).
Qed.

Lemma run_stats ls : forall s s',
  run ls s = Some s' ->
  exists new, produced s' = produced s ++ new /\
    Count_each (calls_of new) (stats s) = Returned (stats s') /\
    (warnings s' <= warnings s + length new)%nat.
Proof.
  induction ls as [|l rest IH]; intros s s' H; simpl in H.
  - simplify_eq. exists []. rewrite app_nil_r. simpl. repeat split. lia.
  - destruct (step l s) as [s1|] eqn:E; [|discriminate].
    destruct (step_stats _ _ _ E) as (n1 & Hp1 & Hc1 & Hw1).
    destruct (IH _ _ H) as (n2 & Hp2 & Hc2 & Hw2).
    exists (n1 ++ n2). split; [by rewrite Hp2, Hp1, app_assoc|]. split.
    + unfold calls_of. rewrite fmap_app, Count_each_app.
      fold (calls_of n1). by rewrite Hc1.
    + rewrite length_app. lia.
Qed.

(** X8.  In every state that a pool reaches, the statistics of the client
    are what [Count] makes of the responses produced so far, each recorded
    once, in the order in which they were produced, starting from the
    statistics the client had; and at most one overload warning has been
    logged per response. *)
Theorem pool_stats (c : Client) (ctx_done : bool) (o : Chan.t Response)
    (todo : list Request) (ls : list label) (s : state) :
  run ls (snd (Serve c ctx_done o todo)) = Some s ->
  Count_each (calls_of (produced s)) (Stats c) = Returned (stats s) /\
  (warnings s <= length (produced s))%nat.
Proof.
  intros Hrun. destruct (run_stats _ _ _ Hrun) as (new & Hp & Hc & Hw).
  simpl in Hp, Hc, Hw. rewrite Hp. split; [|exact Hw].
  rewrite <- Hc. unfold coerce_Concurrency.
  by destruct (decide (Concurrency c < 1)).
Qed.

Lemma pool_stats_witness :
  exists s,
    run [LConstruct 0 None; LFeed; LFeed;
         LRecv 0 (mkResponse None 5 []) false;
         LRecv 0 (mkResponse (Some "refused") 7 []) false]
        (snd (Serve (fresh_client 1 0 "a") false (Chan.mk 1 [])
                    [mkRequest (Some 0%nat) 1 [] 0;
                     mkRequest (Some 0%nat) 2 [] 0])) = Some s /\
    Count_each [(None, 5); (Some "refused", 7)] zeroStats = Returned (stats s) /\
    warnings s = 1%nat.
Proof.
  eassert (Hrun :
    run [LConstruct 0 None; LFeed; LFeed;
         LRecv 0 (mkResponse None 5 []) false;
         LRecv 0 (mkResponse (Some "refused") 7 []) false]
        (snd (Serve (fresh_client 1 0 "a") false (Chan.mk 1 [])
                    [mkRequest (Some 0%nat) 1 [] 0;
                     mkRequest (Some 0%nat) 2 [] 0])) = Some _).
  { vm_compute. reflexivity. }
  destruct (pool_stats _ _ _ _ _ _ Hrun) as [Hstats _].
  eexists. split; [exact Hrun|]. split; [exact Hstats | reflexivity].
Defined.

(** ** The requests of a pool *)

Lemma step_requests l s s' :
  step l s = Some s' ->
  exists took,
    Chan.buf (queue s) ++ feed s = took ++ Chan.buf (queue s') ++ feed s' /\
    (length (produced s') = length (produced s) + count_requests took)%nat /\
    (count_exits BySentinel (workers s')
     = count_exits BySentinel (workers s) + count_sentinels took)%nat /\
    length (workers s') = length (workers s).
Proof.
  intros H.
  destruct l; step_inv H;
    unfold count_exits, count_requests, count_sentinels;
    simpl; count_workers; chan_inv; simpl;
    repeat match goal with
           | Hb : Chan.buf _ = _ |- _ => rewrite Hb
           | Hf : feed _ = _ |- _ => rewrite Hf
           end;
    simpl; rewrite ?length_insert, ?length_app; simpl.
  all: try (exists []; simpl; split; [by rewrite <- ?app_assoc|];
            split; [lia|]; split; [lia | reflexivity]).
  all: try (eexists [_]; simpl; split; [reflexivity|];
            repeat match goal with
                   | Hs : is_sentinel _ = _ |- _ => rewrite Hs
                   end;
            split; [simpl; lia|]; split; [simpl; lia | reflexivity]).
Qed.

Lemma run_requests ls : forall s s',
  run ls s = Some s' ->
  exists took,
    Chan.buf (queue s) ++ feed s = took ++ Chan.buf (queue s') ++ feed s' /\
    (length (produced s') = length (produced s) + count_requests took)%nat /\
    (count_exits BySentinel (workers s')
     = count_exits BySentinel (workers s) + count_sentinels took)%nat /\
    length (workers s') = length (workers s).
Proof.
  induction ls as [|l rest IH]; intros s s' H; simpl in H.
  - simplify_eq. exists []. simpl. repeat split; lia.
  - destruct (step l s) as [s1|] eqn:E; [|discriminate].
    destruct (step_requests _ _ _ E) as (t1 & Hq1 & Hp1 & He1 & Hl1).
    destruct (IH _ _ H) as (t2 & Hq2 & Hp2 & He2 & Hl2).
    exists (t1 ++ t2). split; [by rewrite Hq1, Hq2, app_assoc|].
    unfold count_requests, count_sentinels in *.
    rewrite !sum_list_with_app. repeat split; lia.
Qed.

(** X9.  In every state that a pool reaches, the requests that were queued
    or still to be sent when it started are, in that order, those the
    workers have taken followed by those still in the queue and those still
    to be sent: the queue is first in, first out, and nothing is taken twice
    or skipped.  Each request taken produced exactly one response, each
    sentinel taken made exactly one goroutine return, and the number of
    goroutines never changes. *)
Theorem pool_requests (c : Client) (ctx_done : bool) (o : Chan.t Response)
    (todo : list Request) (ls : list label) (s : state) :
  run ls (snd (Serve c ctx_done o todo)) = Some s ->
  exists took,
    Chan.buf (In c) ++ todo = took ++ Chan.buf (queue s) ++ feed s /\
    length (produced s) = count_requests took /\
    count_exits BySentinel (workers s) = count_sentinels took /\
    length (workers s) = Serve_workers c.
Proof.
  intros Hrun. destruct (run_requests _ _ _ Hrun) as (took & Hq & Hp & He & Hl).
  simpl in Hq, Hp, He, Hl. rewrite In_coerce_Concurrency in Hq.
  destruct (workers_replicate_Spawned (loop_count (Concurrency (coerce_Concurrency c))))
    as (_ & Hex0 & _ & _).
  rewrite Hex0 in He. rewrite length_replicate in Hl.
  exists took. repeat split; assumption.
Qed.

Lemma pool_requests_witness :
  exists s,
    run [LConstruct 0 None; LFeed; LFeed;
         LRecv 0 (mkResponse None 5 []) true; LRecv 0 any_response false]
        (snd (Serve (fresh_client 1 0 "a") false (Chan.mk 1 [])
                    [mkRequest (Some 0%nat) 1 [] 0; sentinel;
                     mkRequest (Some 0%nat) 2 [] 0])) = Some s /\
    feed s = [mkRequest (Some 0%nat) 2 [] 0] /\
    length (produced s) = 1%nat /\
    workers s = [Exited BySentinel None].
Proof.
  eassert (Hrun :
    run [LConstruct 0 None; LFeed; LFeed;
         LRecv 0 (mkResponse None 5 []) true; LRecv 0 any_response false]
        (snd (Serve (fresh_client 1 0 "a") false (Chan.mk 1 [])
                    [mkRequest (Some 0%nat) 1 [] 0; sentinel;
                     mkRequest (Some 0%nat) 2 [] 0])) = Some _).
  { vm_compute. reflexivity. }
  destruct (pool_requests _ _ _ _ _ _ Hrun) as (took & _ & Hp & _).
  eexists. split; [exact Hrun|]. repeat split; reflexivity.
Defined.

(** ** Cancellation *)

Lemma step_cancelled l s s' :
  step l s = Some s' ->
  cancelled s' = cancelled s || negb (normal l).
Proof.
  intros H. destruct l; step_inv H; simpl;
    rewrite ?orb_false_r, ?orb_true_r; try reflexivity; congruence.
Qed.

Lemma step_cancel_exits l s s' :
  step l s = Some s' ->
  cancelled s = true \/
    (count_exits ByCancel (workers s) = 0%nat /\
     count_exits ByConstruction (workers s) = 0%nat) ->
  cancelled s' = true \/
    (count_exits ByCancel (workers s') = 0%nat /\
     count_exits ByConstruction (workers s') = 0%nat).
Proof.
  intros H [Hc|[Hcan Hcon]].
  { left. rewrite (step_cancelled _ _ _ H), Hc. reflexivity. }
  destruct l; step_inv H; unfold count_exits in *; simpl; eauto;
    try match goal with
        | Hl : workers ?s0 !! ?i = Some ?old
          |- context [<[?i := ?new]> (workers ?s0)] =>
            pose proof (sum_list_with_insert
                          (fun w => if exited_by ByCancel w then 1 else 0)%nat
                          (workers s0) i old new Hl) as Hbycancel;
            pose proof (sum_list_with_insert
                          (fun w => if exited_by ByConstruction w then 1 else 0)%nat
                          (workers s0) i old new Hl) as Hbyconstr;
            simpl in Hbycancel, Hbyconstr
        end;
    try (right; split; lia).
Qed.

(** X10.  The context of a pool is done exactly when it was done at the
    start, or the caller has cancelled it, or a transport construction has
    failed: a failure in one goroutine cancels its siblings.  And as long as
    it is not done, no goroutine has returned on cancellation or on a
    construction error. *)
Theorem pool_cancelled (c : Client) (ctx_done : bool) (o : Chan.t Response)
    (todo : list Request) (ls : list label) (s : state) :
  run ls (snd (Serve c ctx_done o todo)) = Some s ->
  cancelled s = ctx_done || existsb (fun l => negb (normal l)) ls /\
  (cancelled s = true \/
   (count_exits ByCancel (workers s) = 0%nat /\
    count_exits ByConstruction (workers s) = 0%nat)).
Proof.
  intros Hrun.
  assert (Hgen : forall ls s0 s1, run ls s0 = Some s1 ->
    cancelled s1 = cancelled s0 || existsb (fun l => negb (normal l)) ls /\
    (cancelled s0 = true \/
       (count_exits ByCancel (workers s0) = 0%nat /\
        count_exits ByConstruction (workers s0) = 0%nat) ->
     cancelled s1 = true \/
       (count_exits ByCancel (workers s1) = 0%nat /\
        count_exits ByConstruction (workers s1) = 0%nat))).
  { clear. induction ls as [|l rest IH]; intros s0 s1 H; simpl in H.
    - simplify_eq. simpl. by rewrite orb_false_r.
    - destruct (step l s0) as [s'|] eqn:E; [|discriminate].
      destruct (IH _ _ H) as [Hc Hex]. split.
      + rewrite Hc, (step_cancelled _ _ _ E). simpl. by rewrite orb_assoc.
      + intros H0. apply Hex. by apply (step_cancel_exits _ _ _ E). }
  destruct (Hgen _ _ _ Hrun) as [Hc Hex]. split; [exact Hc|].
  apply Hex. right. simpl.
  generalize (loop_count (Concurrency (coerce_Concurrency c))) as k.
  unfold count_exits. induction k as [|k [IH1 IH2]]; simpl; [done|].
  by rewrite IH1, IH2.
Qed.

Lemma pool_cancelled_witness :
  exists s,
    run [LConstruct 0 None; LConstruct 1 (Some "unsupported scheme"); LAbort 0]
        (snd (Serve (fresh_client 2 0 "a") false (Chan.mk 1 []) [])) = Some s /\
    cancelled s = true /\
    workers s = [Exited ByCancel None;
                 Exited ByConstruction (Some "unsupported scheme")].
Proof.
  eassert (Hrun :
    run [LConstruct 0 None; LConstruct 1 (Some "unsupported scheme"); LAbort 0]
        (snd (Serve (fresh_client 2 0 "a") false (Chan.mk 1 []) [])) = Some _).
  { vm_compute. reflexivity. }
  destruct (pool_cancelled _ _ _ _ _ _ Hrun) as [Hc _].
  eexists. split; [exact Hrun|]. split; [exact Hc | reflexivity].
Defined.

(** X11.  Once the context is done, a pool can always wind up, whatever
    state it is in: with the reader taking the responses that are in the
    buffer of [out] or held by goroutines in the blocking send, every
    goroutine gets to its select and returns nil there, and [g.Wait()]
    returns the error the group had.  No further request is taken from the
    queue, the statistics do not change, and every response that was
    produced has reached the reader. *)
Theorem pool_stops_when_cancelled (s : state) :
  cancelled s = true ->
  exists s',
    run (stop s) s = Some s' /\
    wait s' = Some (g_err s) /\
    workers s' = stopped <$> workers s /\
    delivered s' = accounted s /\
    queue s' = queue s /\ feed s' = feed s /\
    stats s' = stats s /\ produced s' = produced s.
Proof.
  intros Hc. unfold stop. rewrite run_app, run_consume_all by reflexivity.
  simpl.
  rewrite (run_stop_from (workers s) []); try done.
  eexists. split; [reflexivity|]. simpl. unfold accounted.
  rewrite <- app_assoc. repeat split.
  unfold wait. simpl.
  assert (Hall : forallb has_exited (stopped <$> workers s) = true).
  { induction (workers s) as [|w ws IH]; [reflexivity|].
    rewrite fmap_cons. cbn [forallb]. rewrite IH. by destruct w. }
  by rewrite Hall.
Qed.

Lemma pool_stops_when_cancelled_witness :
  exists s s',
    run [LConstruct 0 None; LFeed; LRecv 0 (mkResponse None 5 []) false;
         LFeed; LRecv 0 (mkResponse None 6 []) false; LCancel]
        (snd (Serve (fresh_client 2 0 "a") false (Chan.mk 1 [])
                    [mkRequest (Some 0%nat) 1 [] 0;
                     mkRequest (Some 0%nat) 2 [] 0;
                     mkRequest (Some 0%nat) 3 [] 0])) = Some s /\
    run (stop s) s = Some s' /\
    wait s' = Some None /\
    delivered s' = [mkResponse None 5 []; mkResponse None 6 []] /\
    feed s' = [mkRequest (Some 0%nat) 3 [] 0].
Proof.
  eassert (Hrun :
    run [LConstruct 0 None; LFeed; LRecv 0 (mkResponse None 5 []) false;
         LFeed; LRecv 0 (mkResponse None 6 []) false; LCancel]
        (snd (Serve (fresh_client 2 0 "a") false (Chan.mk 1 [])
                    [mkRequest (Some 0%nat) 1 [] 0;
                     mkRequest (Some 0%nat) 2 [] 0;
                     mkRequest (Some 0%nat) 3 [] 0])) = Some _).
  { vm_compute. reflexivity. }
  match type of Hrun with
  | _ = Some ?st =>
      destruct (pool_stops_when_cancelled st eq_refl)
        as (s' & Hstop & Hwait & _ & Hdel & _ & Hfeed & _);
      exists st, s'
  end.
  split; [exact Hrun|]. split; [exact Hstop|].
  split; [exact Hwait|]. split; [exact Hdel | exact Hfeed].
Defined.

(** ** [Finalize] before [Serve] *)

(** X12.  For clients built by [NewClients] with a concurrency [k] of at
    least one, [Finalize] can run to its end before any worker exists: the
    [k] sentinels of a client fit in its queue of capacity [2 k].  A pool
    that [Serve] starts afterwards on such a client has [k] goroutines, and
    as long as nobody cancels, every transport is built and the reader of
    [out] keeps receiving, it takes a bounded number of steps and can only
    stop with every goroutine returned on a sentinel. *)
Theorem Finalize_then_Serve (endpoints : list string) (k : Z)
    (timeout : Duration) (n : nat) (e : string) (o : Chan.t Response)
    (ls : list label) (s : state) :
  1 <= k -> 2 * k <= GoInt.max_int ->
  endpoints !! n = Some e ->
  Forall (fun l => normal l = true) ls ->
  run ls (snd (Serve (set_In (Chan.mk (Z.to_nat (2 * k))
                                      (replicate (Z.to_nat k) sentinel))
                             (fresh_client k timeout e))
                     false o [])) = Some s ->
  Handle_each (sends_to n (Finalize (fresh_client k timeout <$> endpoints)))
              (fresh_client k timeout e)
    = Some (set_In (Chan.mk (Z.to_nat (2 * k)) (replicate (Z.to_nat k) sentinel))
                   (fresh_client k timeout e)) /\
  length (workers s) = Z.to_nat k /\
  (length ls <= 3 * Z.to_nat k + length (Chan.buf o) + Z.to_nat k)%nat /\
  (workers s = replicate (Z.to_nat k) (Exited BySentinel None) \/
   exists l, normal l = true /\ is_Some (step l s)).
Proof.
  intros Hk Hmax He Hnormal Hrun.
  assert (Hmul : GoInt.mul 2 k = 2 * k).
  { apply wrap_id.
    unfold GoInt.in_range, GoInt.min_int, GoInt.max_int in *. lia. }
  split.
  { unfold Finalize.
    assert (Hl : (fresh_client k timeout <$> endpoints : list Client) !! n
                 = Some (fresh_client k timeout e)).
    { by rewrite list_lookup_fmap, He. }
    pose proof (sends_to_Finalize_from _ 0%nat n _ Hl) as Hsends.
    simpl in Hsends. rewrite Hsends.
    rewrite Handle_each_room by (cbn; lia).
    cbn [fresh_client In Chan.cap Chan.buf Concurrency loop_count length].
    rewrite Hmul, length_replicate. unfold loop_count.
    rewrite decide_True by lia. reflexivity. }
  assert (Hco : forall q, coerce_Concurrency (set_In q (fresh_client k timeout e))
                          = set_In q (fresh_client k timeout e)).
  { intros q. unfold coerce_Concurrency. simpl.
    destruct (decide (k < 1)); [lia | reflexivity]. }
  unfold Serve in Hrun. rewrite Hco in Hrun. simpl in Hrun.
  destruct (workers_replicate_Spawned (Z.to_nat k))
    as (Hrun0 & Hex0 & Hw0 & Hall0).
  match type of Hrun with
  | run _ ?s0 = _ =>
      destruct (run_shutdown ls s0 s Hnormal eq_refl Hall0 Hrun)
        as (_ & Hall & Hlen & Hcount & Hexits & Hsteps)
  end.
  unfold work_left in Hsteps. simpl in Hlen, Hcount, Hexits, Hsteps.
  unfold loop_count in *.
  rewrite Hrun0 in Hcount. rewrite Hw0, length_replicate in Hsteps.
  rewrite length_replicate in Hlen.
  rewrite app_nil_r, count_sentinels_replicate in Hcount.
  split; [exact Hlen|]. split; [lia|].
  rewrite <- Hlen. apply shutdown_progress; [exact Hall | lia].
Qed.

Lemma Finalize_then_Serve_witness :
  exists s,
    run [LConstruct 0 None; LRecv 0 any_response false]
        (snd (Serve (set_In (Chan.mk 2 [sentinel]) (fresh_client 1 0 "a"))
                    false (Chan.mk 1 []) [])) = Some s /\
    Handle_each (Finalize_from 0 [fresh_client 1 0 "a"]).*2
                (fresh_client 1 0 "a")
      = Some (set_In (Chan.mk 2 [sentinel]) (fresh_client 1 0 "a")) /\
    workers s = [Exited BySentinel None].
Proof.
  eassert (Hrun :
    run [LConstruct 0 None; LRecv 0 any_response false]
        (snd (Serve (set_In (Chan.mk 2 [sentinel]) (fresh_client 1 0 "a"))
                    false (Chan.mk 1 []) [])) = Some _).
  { vm_compute. reflexivity. }
  destruct (Finalize_then_Serve ["a"] 1 0 0 "a" (Chan.mk 1 [])
              [LConstruct 0 None; LRecv 0 any_response false] _
              ltac:(lia) ltac:(vm_compute; discriminate) eq_refl
              ltac:(repeat constructor) Hrun)
    as (Hfin & _ & _ & _).
  eexists. split; [exact Hrun|]. split; [exact Hfin | reflexivity].
Defined.

(** ** [Clients.Serve] *)

Lemma Fleet_run_app ls1 ls2 f :
  Fleet.run (ls1 ++ ls2) f = Fleet.run ls1 f ≫= Fleet.run ls2.
Proof.
  revert f. induction ls1 as [|l ls1 IH]; intros f; simpl; [reflexivity|].
  destruct (Fleet.step l f); [apply IH | reflexivity].
Qed.

(** A pool occupies one place of the list; a move inside it changes what is
    there and leaves the others. *)
Lemma lookup_split {A} (l : list A) (j : nat) (x : A) :
  l !! j = Some x ->
  exists l1 l2, l = l1 ++ x :: l2 /\ length l1 = j /\
                forall y, <[j := y]> l = l1 ++ y :: l2.
Proof.
  intros H. exists (take j l), (drop (S j) l).
  assert (Hlt : (j < length l)%nat) by (by eapply lookup_lt_Some).
  split; [by rewrite take_drop_middle|].
  split; [rewrite length_take; lia|].
  intros y. by apply insert_take_drop.
Qed.

Lemma Fleet_step_accounted l f f' :
  Fleet.step l f = Some f' ->
  exists new, Fleet.produced f' ≡ₚ Fleet.produced f ++ new /\
              Fleet.accounted f' ≡ₚ Fleet.accounted f ++ new.
Proof.
  intros H. destruct l as [| |j l|j]; simpl in H.
  - simplify_eq. exists []. by rewrite !app_nil_r.
  - destruct (Chan.recv (Fleet.out f)) as [[r o]|] eqn:E; [|discriminate].
    simplify_eq. chan_inv. exists []. rewrite !app_nil_r. split; [done|].
    unfold Fleet.accounted, Fleet.in_flight. simpl.
    match goal with Hb : Chan.buf _ = _ |- _ => rewrite Hb end.
    solve_Permutation.
  - destruct (Fleet.own l); [|discriminate].
    destruct (Fleet.pools f !! j) as [p|] eqn:Ep; [|discriminate].
    destruct (step l (Fleet.view f p)) as [p'|] eqn:E; [|discriminate].
    simplify_eq.
    destruct (step_accounted _ _ _ E) as (new & Hp & Ha).
    destruct (lookup_split _ _ _ Ep) as (l1 & l2 & Hl & _ & Hins).
    exists new.
    unfold Fleet.accounted, Fleet.produced, Fleet.in_flight, Fleet.install.
    simpl. rewrite Hins, Hl, !fmap_app, !fmap_cons, !concat_app, !concat_cons.
    unfold accounted in Ha. simpl in Ha, Hp. rewrite Hp. split.
    + solve_Permutation.
    + set (A := concat ((fun p0 => in_flight (workers p0)) <$> l1)).
      set (B := concat ((fun p0 => in_flight (workers p0)) <$> l2)).
      transitivity ((delivered p' ++ Chan.buf (out p')
                     ++ in_flight (workers p')) ++ A ++ B);
        [solve_Permutation|].
      rewrite Ha. solve_Permutation.
  - destruct (Fleet.pools f !! j) as [p|]; [|discriminate].
    destruct (Fleet.returned f !! j) as [[|]|]; try discriminate.
    destruct (wait p) as [r|]; [|discriminate]. simplify_eq.
    exists []. by rewrite !app_nil_r.
Qed.

Lemma Fleet_run_accounted ls : forall f f',
  Fleet.run ls f = Some f' ->
  exists new, Fleet.produced f' ≡ₚ Fleet.produced f ++ new /\
              Fleet.accounted f' ≡ₚ Fleet.accounted f ++ new.
Proof.
  induction ls as [|l rest IH]; intros f f' H; simpl in H.
  - simplify_eq. exists []. by rewrite !app_nil_r.
  - destruct (Fleet.step l f) as [f1|] eqn:E; [|discriminate].
    destruct (Fleet_step_accounted _ _ _ E) as (n1 & Hp1 & Ha1).
    destruct (IH _ _ H) as (n2 & Hp2 & Ha2).
    exists (n1 ++ n2). split.
    + by rewrite Hp2, Hp1, app_assoc.
    + by rewrite Ha2, Ha1, app_assoc.
Qed.

(** X13.  The pools of all the clients write to the one channel [out], and
    nothing is lost or duplicated between them: however the pools and the
    reader are scheduled, the responses returned by the transports of all the
    pools are, as a multiset, those the reader has received, those in the
    buffer of [out] and those held by goroutines in the blocking send,
    apart from what the buffer held at the start. *)
Theorem Clients_Serve_accounted (cs : list (Client * list Request))
    (ctx_done : bool) (o : Chan.t Response) (ls : list Fleet.label)
    (f : Fleet.state) :
  Fleet.run ls (snd (Fleet.Serve cs ctx_done o)) = Some f ->
  Fleet.delivered f ++ Chan.buf (Fleet.out f) ++ Fleet.in_flight f
  ≡ₚ Chan.buf o ++ Fleet.produced f.
Proof.
  intros Hrun.
  destruct (Fleet_run_accounted _ _ _ Hrun) as (new & Hp & Ha).
  unfold Fleet.accounted in Ha. rewrite Ha, Hp.
  assert (H0 : Fleet.produced (snd (Fleet.Serve cs ctx_done o)) = []).
  { clear. unfold Fleet.produced. simpl. induction cs as [|c cs IH]; [done|].
    rewrite !fmap_cons. simpl. exact IH. }
  assert (H1 : Fleet.in_flight (snd (Fleet.Serve cs ctx_done o)) = []).
  { clear. unfold Fleet.in_flight. simpl.
    induction cs as [|c cs IH]; [done|].
    rewrite !fmap_cons, concat_cons, IH, app_nil_r. simpl.
    generalize (loop_count (Concurrency (coerce_Concurrency c.1))) as k.
    induction k as [|k IHk]; [done|]. simpl. exact IHk. }
  rewrite H0, H1. simpl. by rewrite app_nil_r.
Qed.

Lemma Clients_Serve_accounted_witness :
  exists f,
    Fleet.run [Fleet.LPool 0 (LConstruct 0 None);
               Fleet.LPool 1 (LConstruct 0 None);
               Fleet.LPool 0 LFeed; Fleet.LPool 1 LFeed;
               Fleet.LPool 0 (LRecv 0 (mkResponse None 5 []) false);
               Fleet.LPool 1 (LRecv 0 (mkResponse None 6 []) false);
               Fleet.LConsume; Fleet.LPool 1 (LUnblock 0 false)]
      (snd (Fleet.Serve
              [(fresh_client 1 0 "a", [mkRequest (Some 0%nat) 1 [] 0]);
               (fresh_client 1 0 "b", [mkRequest (Some 1%nat) 1 [] 0])]
              false (Chan.mk 1 []))) = Some f /\
    Fleet.delivered f ++ Chan.buf (Fleet.out f) ++ Fleet.in_flight f
    ≡ₚ [] ++ Fleet.produced f /\
    Fleet.delivered f = [mkResponse None 5 []] /\
    Chan.buf (Fleet.out f) = [mkResponse None 6 []].
Proof.
  eassert (Hrun :
    Fleet.run [Fleet.LPool 0 (LConstruct 0 None);
               Fleet.LPool 1 (LConstruct 0 None);
               Fleet.LPool 0 LFeed; Fleet.LPool 1 LFeed;
               Fleet.LPool 0 (LRecv 0 (mkResponse None 5 []) false);
               Fleet.LPool 1 (LRecv 0 (mkResponse None 6 []) false);
               Fleet.LConsume; Fleet.LPool 1 (LUnblock 0 false)]
      (snd (Fleet.Serve
              [(fresh_client 1 0 "a", [mkRequest (Some 0%nat) 1 [] 0]);
               (fresh_client 1 0 "b", [mkRequest (Some 1%nat) 1 [] 0])]
              false (Chan.mk 1 []))) = Some _).
  { vm_compute. reflexivity. }
  eexists. split; [exact Hrun|].
  split; [exact (Clients_Serve_accounted _ _ _ _ _ Hrun)|].
  split; reflexivity.
Defined.

(** ** What [Clients.Serve] returns *)

Lemma step_after_exit l s s' :
  step l s = Some s' ->
  forallb has_exited (workers s) = true ->
  workers s' = workers s /\ g_err s' = g_err s.
Proof.
  intros H Hall.
  apply Is_true_true, forallb_True in Hall.
  rewrite Forall_lookup in Hall.
  destruct l; step_inv H; simpl; try (split; reflexivity); exfalso;
    match goal with
    | Hl : workers _ !! _ = Some _ |- _ => apply Hall in Hl; exact Hl
    end.
Qed.

Lemma wait_Some s r :
  wait s = Some r <-> forallb has_exited (workers s) = true /\ r = g_err s.
Proof.
  unfold wait. destruct (forallb has_exited (workers s)); split.
  - intros [= <-]. done.
  - intros [_ ->]. done.
  - discriminate.
  - intros [? _]. discriminate.
Qed.

(** A move inside a pool that has returned changes neither its goroutines
    nor the error of its group. *)
Lemma view_step_returned l f p p' :
  step l (Fleet.view f p) = Some p' ->
  wait p = Some (g_err p) ->
  wait p' = Some (g_err p') /\ g_err p' = g_err p.
Proof.
  intros E Hw. apply wait_Some in Hw as [Hall _].
  destruct (step_after_exit _ _ _ E Hall) as [Hws Hge]. simpl in Hws, Hge.
  split; [|exact Hge]. apply wait_Some. by rewrite Hws.
Qed.

Lemma Fleet_step_group_ok l f f' :
  Fleet.step l f = Some f' ->
  Fleet.group_ok f ->
  Fleet.group_ok f' /\
  (forall e, Fleet.g_err f = Some e -> Fleet.g_err f' = Some e).
Proof.
  intros H (Hlen & Hw & Hg). destruct l as [| |j l|j]; simpl in H.
  - simplify_eq. split; [|done]. repeat split; simpl; try done.
    destruct (Fleet.g_err f); [|done]. by destruct Hg as [_ Hg].
  - destruct (Chan.recv (Fleet.out f)) as [[r o]|]; [|discriminate].
    simplify_eq. split; [|done]. repeat split; simpl; done.
  - destruct (Fleet.own l); [|discriminate].
    destruct (Fleet.pools f !! j) as [p|] eqn:Ep; [|discriminate].
    destruct (step l (Fleet.view f p)) as [p'|] eqn:E; [|discriminate].
    simplify_eq. split; [|done].
    assert (Hj : (j < length (Fleet.pools f))%nat) by (by eapply lookup_lt_Some).
    assert (Hback : forall k q,
      <[j := p']> (Fleet.pools f) !! k = Some q ->
      Fleet.returned f !! k = Some true ->
      exists q0, Fleet.pools f !! k = Some q0 /\
                 wait q = Some (g_err q) /\ g_err q = g_err q0).
    { intros k q Hq Hr. destruct (decide (k = j)) as [->|Hne].
      - rewrite list_lookup_insert_eq in Hq by exact Hj. simplify_eq.
        exists p. split; [exact Ep|].
        apply (view_step_returned _ _ _ _ E). by apply (Hw j).
      - rewrite list_lookup_insert_ne in Hq by done.
        exists q. split; [exact Hq|]. split; [by apply (Hw k)|done]. }
    unfold Fleet.group_ok, Fleet.install. simpl.
    split; [by rewrite length_insert|]. split.
    + intros k q Hq Hr. by destruct (Hback k q Hq Hr) as (q0 & _ & Hwq & _).
    + destruct (Fleet.g_err f) as [e|].
      * destruct Hg as (Hc & k & q0 & Hq0 & Hr & He). split; [exact Hc|].
        destruct (decide (k = j)) as [->|Hne].
        -- exists j, p'. rewrite list_lookup_insert_eq by exact Hj.
           split; [done|]. split; [exact Hr|].
           destruct (Hback j p') as (q1 & Hq1 & _ & Hge);
             [by rewrite list_lookup_insert_eq by exact Hj | exact Hr |].
           simplify_eq. by rewrite Hge.
        -- exists k, q0. by rewrite list_lookup_insert_ne by done.
      * intros k q Hq Hr.
        destruct (Hback k q Hq Hr) as (q0 & Hq0 & _ & Hge).
        rewrite Hge. by apply (Hg k).
  - destruct (Fleet.pools f !! j) as [p|] eqn:Ep; [|discriminate].
    destruct (Fleet.returned f !! j) as [[|]|] eqn:Er; try discriminate.
    destruct (wait p) as [r|] eqn:Ewait; [|discriminate]. simplify_eq.
    assert (Hr : r = g_err p) by (by apply wait_Some in Ewait as [_ ->]).
    assert (Hj : (j < length (Fleet.returned f))%nat)
      by (by eapply lookup_lt_Some).
    split; [|by intros e He; simpl; rewrite He].
    unfold Fleet.group_ok, Fleet.group_return. simpl.
    split; [by rewrite length_insert|]. split.
    + intros k q Hq Hk. destruct (decide (k = j)) as [->|Hne].
      * simplify_eq. exact Ewait.
      * rewrite list_lookup_insert_ne in Hk by done. by apply (Hw k).
    + destruct (Fleet.g_err f) as [e|].
      * destruct Hg as (Hc & k & q0 & Hq0 & Hk & He).
        split; [by rewrite Hc; destruct r|].
        exists k, q0. split; [exact Hq0|]. split; [|exact He].
        destruct (decide (k = j)) as [->|Hne].
        -- by rewrite list_lookup_insert_eq by exact Hj.
        -- by rewrite list_lookup_insert_ne by done.
      * destruct r as [e|].
        -- split; [done|]. exists j, p.
           rewrite list_lookup_insert_eq by exact Hj. done.
        -- intros k q Hq Hk. destruct (decide (k = j)) as [->|Hne].
           ++ by simplify_eq.
           ++ rewrite list_lookup_insert_ne in Hk by done. by apply (Hg k).
Qed.

Lemma Fleet_run_group_ok ls : forall f f',
  Fleet.run ls f = Some f' ->
  Fleet.group_ok f ->
  Fleet.group_ok f' /\
  (forall e, Fleet.g_err f = Some e -> Fleet.g_err f' = Some e).
Proof.
  induction ls as [|l rest IH]; intros f f' H Hok; simpl in H.
  - by simplify_eq.
  - destruct (Fleet.step l f) as [f1|] eqn:E; [|discriminate].
    destruct (Fleet_step_group_ok _ _ _ E Hok) as [Hok1 Hkeep1].
    destruct (IH _ _ H Hok1) as [Hok' Hkeep]. split; [exact Hok'|].
    intros e He. by apply Hkeep, Hkeep1.
Qed.

Lemma Fleet_Serve_group_ok cs ctx_done o :
  Fleet.group_ok (snd (Fleet.Serve cs ctx_done o)).
Proof.
  unfold Fleet.group_ok. simpl.
  split; [by rewrite length_replicate, length_fmap|].
  split; intros j p _ Hr; apply lookup_replicate in Hr as [Hr _]; done.
Qed.

(** The error of the group of a pool is the first construction error
    among the moves made inside it. *)
Lemma Fleet_step_pool_err j l f f' p :
  Fleet.step l f = Some f' ->
  Fleet.pools f !! j = Some p ->
  exists p', Fleet.pools f' !! j = Some p' /\
    g_err p' = match g_err p with
               | Some e => Some e
               | None => head (construct_errors (Fleet.pool_labels j [l]))
               end.
Proof.
  intros H Hp.
  assert (Hsame : g_err p = match g_err p with
                            | Some e => Some e
                            | None => None
                            end) by (by destruct (g_err p)).
  destruct l as [| |k l|k]; simpl in H.
  - simplify_eq. by exists p.
  - destruct (Chan.recv (Fleet.out f)) as [[r o]|]; [|discriminate].
    simplify_eq. by exists p.
  - destruct (Fleet.own l); [|discriminate].
    destruct (Fleet.pools f !! k) as [q|] eqn:Eq; [|discriminate].
    destruct (step l (Fleet.view f q)) as [q'|] eqn:E; [|discriminate].
    simplify_eq. simpl. destruct (decide (k = j)) as [->|Hne].
    + exists q'. rewrite list_lookup_insert_eq by (by eapply lookup_lt_Some).
      split; [done|]. simplify_eq. by rewrite (step_g_err _ _ _ E).
    + exists p. by rewrite list_lookup_insert_ne by done.
  - destruct (Fleet.pools f !! k) as [q|]; [|discriminate].
    destruct (Fleet.returned f !! k) as [[|]|]; try discriminate.
    destruct (wait q) as [r|]; [|discriminate]. simplify_eq. by exists p.
Qed.

Lemma Fleet_run_pool_err j ls : forall f f' p,
  Fleet.run ls f = Some f' ->
  Fleet.pools f !! j = Some p ->
  exists p', Fleet.pools f' !! j = Some p' /\
    g_err p' = match g_err p with
               | Some e => Some e
               | None => head (construct_errors (Fleet.pool_labels j ls))
               end.
Proof.
  induction ls as [|l rest IH]; intros f f' p H Hp; simpl in H.
  - simplify_eq. exists p. split; [done|]. by destruct (g_err p).
  - destruct (Fleet.step l f) as [f1|] eqn:E; [|discriminate].
    destruct (Fleet_step_pool_err _ _ _ _ _ E Hp) as (p1 & Hp1 & He1).
    destruct (IH _ _ _ H Hp1) as (p' & Hp' & He').
    exists p'. split; [exact Hp'|]. rewrite He', He1.
    destruct (g_err p); [reflexivity|].
    change (l :: rest) with ([l] ++ rest).
    unfold Fleet.pool_labels, construct_errors. rewrite !omap_app.
    by destruct (omap _ (omap _ [l])).
Qed.

(** X14.  What [Clients.Serve] returns.  However the pools are scheduled:
    the error of the group of each pool is the first construction error
    among the moves of that pool; an error once kept by the outer group is
    never replaced; if the outer group holds an error, it has cancelled the
    context of every pool and the error is that of a pool that has returned;
    and once every [Client.Serve] has returned, [g.Wait()] gives that error,
    which is nil exactly when no pool had a construction error. *)
Theorem Clients_Serve_result (cs : list (Client * list Request))
    (ctx_done : bool) (o : Chan.t Response) (ls1 ls2 : list Fleet.label)
    (f1 f : Fleet.state) :
  Fleet.run ls1 (snd (Fleet.Serve cs ctx_done o)) = Some f1 ->
  Fleet.run ls2 f1 = Some f ->
  (forall e, Fleet.g_err f1 = Some e -> Fleet.g_err f = Some e) /\
  (forall j p, Fleet.pools f !! j = Some p ->
     g_err p = head (construct_errors (Fleet.pool_labels j (ls1 ++ ls2)))) /\
  (forall e, Fleet.g_err f = Some e ->
     Fleet.cancelled f = true /\
     exists j, (j < length cs)%nat /\
       head (construct_errors (Fleet.pool_labels j (ls1 ++ ls2))) = Some e) /\
  (Fleet.wait f = None \/
   (Fleet.wait f = Some (Fleet.g_err f) /\
    (forall j p, Fleet.pools f !! j = Some p -> wait p = Some (g_err p)) /\
    (Fleet.g_err f = None <->
     forall j, (j < length cs)%nat ->
       head (construct_errors (Fleet.pool_labels j (ls1 ++ ls2))) = None))).
Proof.
  intros Hrun1 Hrun2.
  destruct (Fleet_run_group_ok _ _ _ Hrun1 (Fleet_Serve_group_ok _ _ _))
    as [Hok1 _].
  destruct (Fleet_run_group_ok _ _ _ Hrun2 Hok1) as [Hok Hkeep].
  assert (Hrun : Fleet.run (ls1 ++ ls2) (snd (Fleet.Serve cs ctx_done o))
                 = Some f).
  { by rewrite Fleet_run_app, Hrun1. }
  assert (Hlen : length (Fleet.pools f) = length cs).
  { assert (Hgen : forall ls g g', Fleet.run ls g = Some g' ->
      length (Fleet.pools g') = length (Fleet.pools g)).
    { clear. induction ls as [|l rest IH]; intros g g' H; simpl in H.
      - by simplify_eq.
      - destruct (Fleet.step l g) as [g1|] eqn:E; [|discriminate].
        rewrite (IH _ _ H). destruct l; simpl in E;
          repeat case_match; simplify_eq; simpl; try done.
        by rewrite length_insert. }
    rewrite (Hgen _ _ _ Hrun). simpl. by rewrite length_fmap. }
  assert (Herr : forall j p, Fleet.pools f !! j = Some p ->
    g_err p = head (construct_errors (Fleet.pool_labels j (ls1 ++ ls2)))).
  { intros j p Hp.
    assert (Hj : (j < length cs)%nat).
    { rewrite <- Hlen. by eapply lookup_lt_Some. }
    destruct (lookup_lt_is_Some_2 cs j Hj) as [ct Hct].
    destruct (Fleet_run_pool_err j _ _ _ _ Hrun
                ltac:(simpl; rewrite list_lookup_fmap, Hct; reflexivity))
      as (p' & Hp' & He).
    simpl in He. by simplify_eq. }
  destruct Hok as (Hlenr & Hw & Hg).
  split; [exact Hkeep|]. split; [exact Herr|]. split.
  { intros e He. rewrite He in Hg. destruct Hg as (Hc & j & p & Hp & _ & Hpe).
    split; [exact Hc|]. exists j. split.
    - rewrite <- Hlen. by eapply lookup_lt_Some.
    - by rewrite <- (Herr j p Hp). }
  unfold Fleet.wait.
  destruct (forallb id (Fleet.returned f)) eqn:Hall; [right|by left].
  apply Is_true_true, forallb_True in Hall. rewrite Forall_lookup in Hall.
  assert (Hret : forall j p, Fleet.pools f !! j = Some p ->
                             Fleet.returned f !! j = Some true).
  { intros j p Hp.
    assert (Hj : (j < length (Fleet.returned f))%nat).
    { rewrite Hlenr. by eapply lookup_lt_Some. }
    destruct (lookup_lt_is_Some_2 _ j Hj) as [b Hb].
    pose proof (Hall j b Hb) as Hid. by destruct b. }
  split; [reflexivity|]. split; [by eauto|].
  destruct (Fleet.g_err f) as [e|].
  - destruct Hg as (_ & j & p & Hp & _ & Hpe). split; [done|].
    intros Hnone. rewrite (Herr j p Hp), Hnone in Hpe; [done|].
    rewrite <- Hlen. by eapply lookup_lt_Some.
  - split; [|done]. intros _ j Hj. rewrite <- Hlen in Hj.
    destruct (lookup_lt_is_Some_2 _ j Hj) as [p Hp].
    rewrite <- (Herr j p Hp). by eauto.
Qed.

Lemma Clients_Serve_result_witness :
  exists f1 f,
    Fleet.run [Fleet.LPool 0 (LConstruct 0 None);
               Fleet.LPool 1 (LConstruct 0 (Some "unsupported scheme"));
               Fleet.LReturn 1]
      (snd (Fleet.Serve [(fresh_client 1 0 "a", []); (fresh_client 1 0 "b", [])]
                        false (Chan.mk 1 []))) = Some f1 /\
    Fleet.run [Fleet.LPool 0 (LAbort 0); Fleet.LReturn 0] f1 = Some f /\
    Fleet.g_err f1 = Some "unsupported scheme" /\
    Fleet.wait f = Some (Some "unsupported scheme").
Proof.
  eassert (Hrun1 :
    Fleet.run [Fleet.LPool 0 (LConstruct 0 None);
               Fleet.LPool 1 (LConstruct 0 (Some "unsupported scheme"));
               Fleet.LReturn 1]
      (snd (Fleet.Serve [(fresh_client 1 0 "a", []); (fresh_client 1 0 "b", [])]
                        false (Chan.mk 1 []))) = Some _).
  { vm_compute. reflexivity. }
  match type of Hrun1 with
  | _ = Some ?g =>
      eassert (Hrun2 :
        Fleet.run [Fleet.LPool 0 (LAbort 0); Fleet.LReturn 0] g = Some _);
        [vm_compute; reflexivity|];
      assert (He1 : Fleet.g_err g = Some "unsupported scheme")
        by reflexivity
  end.
  destruct (Clients_Serve_result _ _ _ _ _ _ _ Hrun1 Hrun2)
    as (Hkeep & _ & _ & Hwait).
  eexists _, _. split; [exact Hrun1|]. split; [exact Hrun2|].
  split; [exact He1|].
  destruct Hwait as [Hw|[Hw _]]; [discriminate Hw|].
  exact (eq_trans Hw (f_equal Some (Hkeep _ He1))).
Defined.

(** ** Cancellation reaches every pool *)

Lemma view_install j l f p p1 :
  step l (Fleet.view f p) = Some p1 ->
  Fleet.view (Fleet.install j p1 f) p1 = p1.
Proof.
  intros E. pose proof (step_cancelled _ _ _ E) as Hc. simpl in Hc.
  unfold Fleet.view, Fleet.install. destruct p1; simpl in *. f_equal.
  rewrite Hc.
  by destruct (cancelled p), (Fleet.cancelled f), (normal l).
Qed.

(** A schedule of moves of one pool is a schedule of the whole. *)
Lemma lift_run j ls : forall f p p',
  Fleet.pools f !! j = Some p ->
  forallb Fleet.own ls = true ->
  run ls (Fleet.view f p) = Some p' ->
  exists f' q,
    Fleet.run (Fleet.LPool j <$> ls) f = Some f' /\
    Fleet.pools f' = <[j := q]> (Fleet.pools f) /\
    Fleet.view f' q = p' /\
    Fleet.returned f' = Fleet.returned f /\
    Fleet.cancelled f' = Fleet.cancelled f /\
    Fleet.g_err f' = Fleet.g_err f.
Proof.
  induction ls as [|l rest IH]; intros f p p' Hp Hown Hrun; simpl in Hrun.
  - simplify_eq. exists f, p. simpl. by rewrite list_insert_id.
  - simpl in Hown. apply andb_prop in Hown as [Hl Hrest].
    destruct (step l (Fleet.view f p)) as [p1|] eqn:E; [|discriminate].
    assert (Hj : (j < length (Fleet.pools f))%nat)
      by (by eapply lookup_lt_Some).
    rewrite <- (view_install j _ _ _ _ E) in Hrun.
    destruct (IH (Fleet.install j p1 f) p1 p') as (f' & q & Hr & Hps & Hv & H1 & H2 & H3);
      [ simpl; by rewrite list_lookup_insert_eq | exact Hrest | exact Hrun | ].
    exists f', q. rewrite fmap_cons. simpl. rewrite Hl, Hp, E.
    split; [exact Hr|]. split; [|done].
    rewrite Hps. simpl. by rewrite list_insert_insert_eq.
Qed.

Lemma stop_from_own ws : forall i, forallb Fleet.own (stop_from i ws) = true.
Proof.
  induction ws as [|w ws IH]; intros i; [reflexivity|].
  destruct w; simpl; apply IH.
Qed.

Lemma Fleet_run_consume_all n : forall f,
  length (Chan.buf (Fleet.out f)) = n ->
  Fleet.run (replicate n Fleet.LConsume) f
  = Some (Fleet.mkState (Fleet.pools f) (Fleet.returned f)
            (Chan.mk (Chan.cap (Fleet.out f)) [])
            (Fleet.delivered f ++ Chan.buf (Fleet.out f))
            (Fleet.cancelled f) (Fleet.g_err f)).
Proof.
  induction n as [|n IH]; intros f Hlen.
  - apply nil_length_inv in Hlen.
    destruct f as [? ? [cap buf] ? ? ?]. simpl in *. subst.
    by rewrite app_nil_r.
  - simpl. unfold Chan.recv.
    destruct (Chan.buf (Fleet.out f)) as [|r rest] eqn:Eb; [discriminate|].
    rewrite IH by (simpl in *; lia). simpl. by rewrite <- app_assoc.
Qed.

Lemma stopped_exited ws : forallb has_exited (stopped <$> ws) = true.
Proof.
  induction ws as [|w ws IH]; [reflexivity|].
  rewrite fmap_cons. cbn [forallb]. rewrite IH. by destruct w.
Qed.

Lemma Fleet_run_keep ls : forall f f' e,
  Fleet.run ls f = Some f' ->
  Fleet.g_err f = Some e -> Fleet.g_err f' = Some e.
Proof.
  induction ls as [|l rest IH]; intros f f' e H He; simpl in H.
  - by simplify_eq.
  - destruct (Fleet.step l f) as [f1|] eqn:E; [|discriminate].
    apply (IH _ _ _ H).
    destruct l; simpl in E; repeat case_match; simplify_eq; simpl;
      try done.
    by rewrite He.
Qed.

Lemma run_stop_pools todo : forall rtodo done rdone f,
  Fleet.pools f = done ++ todo ->
  Fleet.returned f = rdone ++ rtodo ->
  length rdone = length done ->
  length rtodo = length todo ->
  Chan.buf (Fleet.out f) = [] ->
  Fleet.cancelled f = true ->
  exists f' todo',
    Fleet.run (Fleet.stop_pools (length done) todo rtodo) f = Some f' /\
    Fleet.pools f' = done ++ todo' /\
    Fleet.returned f' = rdone ++ replicate (length todo) true /\
    Forall2 Fleet.wound_up todo todo' /\
    Fleet.delivered f'
    = Fleet.delivered f
      ++ concat ((fun p => in_flight (workers p)) <$> todo) /\
    Chan.buf (Fleet.out f') = [] /\
    Fleet.cancelled f' = true.
Proof.
  induction todo as [|p todo IH];
    intros rtodo done rdone f Hps Hrs Hld Hlt Hbuf Hc.
  - destruct rtodo; [|discriminate]. exists f, []. simpl.
    rewrite !app_nil_r in *. repeat split; try assumption. constructor.
  - destruct rtodo as [|r rtodo]; [discriminate|]. simpl in Hlt.
    set (j := length done).
    assert (Hp : Fleet.pools f !! j = Some p).
    { rewrite Hps. by apply list_lookup_middle. }
    assert (Hcv : cancelled (Fleet.view f p) = true).
    { simpl. by rewrite Hc, orb_true_r. }
    pose proof (run_stop_from (workers p) [] (Fleet.view f p)
                  eq_refl Hbuf Hcv) as Hpool.
    simpl in Hpool.
    destruct (lift_run j _ _ _ _ Hp (stop_from_own _ _) Hpool)
      as (f1 & q & Hrun1 & Hps1 & Hview & Hrs1 & Hc1 & He1).
    pose proof (f_equal workers Hview) as Hwq.
    pose proof (f_equal g_err Hview) as Hgq.
    pose proof (f_equal queue Hview) as Hqq.
    pose proof (f_equal feed Hview) as Hfq.
    pose proof (f_equal stats Hview) as Hsq.
    pose proof (f_equal produced Hview) as Hpq.
    pose proof (f_equal out Hview) as Hout.
    pose proof (f_equal delivered Hview) as Hdel.
    simpl in Hwq, Hgq, Hqq, Hfq, Hsq, Hpq, Hout, Hdel.
    assert (Hq : Fleet.pools f1 = (done ++ [q]) ++ todo).
    { rewrite Hps1, Hps. unfold j. rewrite insert_app_r_alt by lia.
      rewrite Nat.sub_diag. simpl. by rewrite <- app_assoc. }
    assert (Hret : exists f2,
      Fleet.run (if r then [] else [Fleet.LReturn j]) f1 = Some f2 /\
      Fleet.pools f2 = Fleet.pools f1 /\
      Fleet.returned f2 = (rdone ++ [true]) ++ rtodo /\
      Fleet.out f2 = Fleet.out f1 /\
      Fleet.delivered f2 = Fleet.delivered f1 /\
      Fleet.cancelled f2 = true).
    { destruct r.
      - exists f1. simpl. rewrite Hrs1, Hrs, Hc1, <- app_assoc. done.
      - assert (Hqj : Fleet.pools f1 !! j = Some q).
        { rewrite Hps1. apply list_lookup_insert_eq.
          by eapply lookup_lt_Some. }
        assert (Hrj : Fleet.returned f1 !! j = Some false).
        { rewrite Hrs1, Hrs. unfold j. rewrite <- Hld.
          by apply list_lookup_middle. }
        assert (Hwait : wait q = Some (g_err q)).
        { unfold wait. by rewrite Hwq, stopped_exited. }
        eexists. simpl. rewrite Hqj, Hrj, Hwait. split; [reflexivity|].
        simpl. rewrite Hrs1, Hrs, Hc1, Hc. unfold j. rewrite <- Hld.
        rewrite insert_app_r_alt by lia. rewrite Nat.sub_diag. simpl.
        rewrite <- app_assoc. repeat split. by destruct (g_err q). }
    destruct Hret as (f2 & Hrun2 & Hps2 & Hrs2 & Hout2 & Hdel2 & Hc2).
    destruct (IH rtodo (done ++ [q]) (rdone ++ [true]) f2)
      as (f' & todo' & Hrun3 & Hps3 & Hrs3 & Hall & Hdel3 & Hbuf3 & Hc3).
    { by rewrite Hps2. }
    { exact Hrs2. }
    { rewrite !length_app. simpl. lia. }
    { lia. }
    { by rewrite Hout2, Hout. }
    { exact Hc2. }
    exists f', (q :: todo'). split.
    { simpl. rewrite Fleet_run_app, Hrun1. simpl.
      rewrite Fleet_run_app, Hrun2. simpl.
      replace (S j) with (length (done ++ [q]))
        by (unfold j; rewrite length_app; simpl; lia).
      exact Hrun3. }
    split; [by rewrite Hps3, <- app_assoc|].
    split; [by rewrite Hrs3, <- app_assoc|].
    split; [constructor; [by repeat split|exact Hall]|].
    split; [|done].
    rewrite Hdel3, Hdel2, Hdel, fmap_cons, concat_cons.
    by rewrite <- !app_assoc.
Qed.

(** X15.  Once the context of the outer group is done (the caller has
    cancelled, or some [Client.Serve] has returned an error), the whole can
    always wind up, whatever state the pools are in: the reader takes the
    responses that are in [out] or held in a blocking send, every goroutine
    of every pool returns, every [Client.Serve] returns, and [g.Wait()] of
    the outer group returns.  No pool takes a further request, no
    statistics change, no response is left behind, and an error that the
    outer group already held is the one returned. *)
Theorem Clients_Serve_stops_when_cancelled (f : Fleet.state) :
  Fleet.cancelled f = true ->
  length (Fleet.returned f) = length (Fleet.pools f) ->
  exists f',
    Fleet.run (Fleet.stop f) f = Some f' /\
    Fleet.wait f' = Some (Fleet.g_err f') /\
    (forall e, Fleet.g_err f = Some e -> Fleet.g_err f' = Some e) /\
    Forall2 Fleet.wound_up (Fleet.pools f) (Fleet.pools f') /\
    Fleet.delivered f' = Fleet.accounted f /\
    Chan.buf (Fleet.out f') = [].
Proof.
  intros Hc Hlen. unfold Fleet.stop.
  pose proof (Fleet_run_consume_all _ f eq_refl) as Hrun0.
  match type of Hrun0 with
  | _ = Some ?g =>
      destruct (run_stop_pools (Fleet.pools f) (Fleet.returned f) [] [] g)
        as (f' & ps' & Hrun1 & Hps & Hrs & Hall & Hdel & Hbuf & Hc');
        [reflexivity | reflexivity | reflexivity | exact Hlen
        | reflexivity | exact Hc | ]
  end.
  simpl in Hrun1, Hps, Hrs, Hdel.
  assert (Hrun : Fleet.run
            (replicate (length (Chan.buf (Fleet.out f))) Fleet.LConsume
             ++ Fleet.stop_pools 0 (Fleet.pools f) (Fleet.returned f)) f
          = Some f').
  { by rewrite Fleet_run_app, Hrun0. }
  exists f'. split; [exact Hrun|]. split.
  { unfold Fleet.wait. rewrite Hrs.
    assert (Htrue : forall n, forallb id (replicate n true) = true).
    { clear. induction n as [|n IH]; [reflexivity|exact IH]. }
    by rewrite Htrue. }
  split; [by intros e; apply (Fleet_run_keep _ _ _ _ Hrun)|].
  split; [by rewrite Hps|]. split; [|exact Hbuf].
  unfold Fleet.accounted, Fleet.in_flight. by rewrite Hdel, <- app_assoc.
Qed.

Lemma Clients_Serve_stops_when_cancelled_witness :
  exists f f',
    Fleet.run [Fleet.LPool 0 (LConstruct 0 None); Fleet.LPool 0 LFeed;
               Fleet.LPool 0 (LRecv 0 (mkResponse None 5 []) false);
               Fleet.LPool 0 LFeed;
               Fleet.LPool 0 (LRecv 0 (mkResponse None 6 []) false);
               Fleet.LPool 1 (LConstruct 0 (Some "unsupported scheme"));
               Fleet.LReturn 1]
      (snd (Fleet.Serve
              [(fresh_client 1 0 "a", [mkRequest (Some 0%nat) 1 [] 0;
                                       mkRequest (Some 0%nat) 2 [] 0]);
               (fresh_client 1 0 "b", [])]
              false (Chan.mk 1 []))) = Some f /\
    Fleet.run (Fleet.stop f) f = Some f' /\
    Fleet.wait f' = Some (Some "unsupported scheme") /\
    Fleet.delivered f' = [mkResponse None 5 []; mkResponse None 6 []].
Proof.
  eassert (Hrun :
    Fleet.run [Fleet.LPool 0 (LConstruct 0 None); Fleet.LPool 0 LFeed;
               Fleet.LPool 0 (LRecv 0 (mkResponse None 5 []) false);
               Fleet.LPool 0 LFeed;
               Fleet.LPool 0 (LRecv 0 (mkResponse None 6 []) false);
               Fleet.LPool 1 (LConstruct 0 (Some "unsupported scheme"));
               Fleet.LReturn 1]
      (snd (Fleet.Serve
              [(fresh_client 1 0 "a", [mkRequest (Some 0%nat) 1 [] 0;
                                       mkRequest (Some 0%nat) 2 [] 0]);
               (fresh_client 1 0 "b", [])]
              false (Chan.mk 1 []))) = Some _).
  { vm_compute. reflexivity. }
  match type of Hrun with
  | _ = Some ?g =>
      destruct (Clients_Serve_stops_when_cancelled g eq_refl eq_refl)
        as (f' & Hstop & Hwait & Hkeep & _ & Hdel & _);
      pose proof (Hkeep "unsupported scheme" eq_refl) as He
  end.
  eexists _, f'. split; [exact Hrun|]. split; [exact Hstop|].
  split; [by rewrite Hwait, He | exact Hdel].
Defined.
